(** * horizon-pkg-fetch: the fetch package ([fetch.go])

    A shallow embedding of [fetch.go] and the properties of its part
    downloader, part verifier, manifest precheck and fetch orchestrator.

    The Go code acts on a file system and on the network.  Both are made
    explicit: a [World] holds the regular files, the directories and the
    log of the HTTP GET requests issued so far, and an [Env] holds what the
    outside answers (HTTP responses, the JSON decoder, the working
    directory).  Every function of [fetch.go] becomes a function that takes
    a [World] and returns the next one with its Go results. *)

From stdpp Require Import base option list strings gmap sets.
From Stdlib Require Import ZArith Lia.
From Stdlib.Strings Require Import Ascii Byte.

Open Scope Z_scope.
Open Scope string_scope.
Open Scope list_scope.

(** ** The manifest types of package [horizonpkg] *)

(** Modelled from the spec: [horizonpkg.PartSource] is declared outside
    [fetch.go]; a source is a single retrieval location (URL). *)
Record PartSource := mkSource { URL : string }.

(** Modelled from the spec: [horizonpkg.DockerImagePart] is declared outside
    [fetch.go]; a part has an identity, an expected size in bytes, an
    ordered list of sources and a list of signature strings. *)
Record DockerImagePart := mkPart {
  Part_ID : string;
  Bytes : Z;
  Sources : list PartSource;
  Signatures : list string
}.

(** Modelled from the spec: [horizonpkg.DockerImageParts] is the mapping from
    part name to part. *)
Abbreviation DockerImageParts := (gmap string DockerImagePart).

(** Modelled from the spec: [horizonpkg.Pkg] is declared outside [fetch.go];
    [fetch.go] reads [pkg.ID], [pkg.Parts] and [pkg.Meta.Provides.Images],
    the provenance metadata keyed by part identity. *)
Record Pkg := mkPkg {
  Pkg_ID : string;
  Meta_Provides_Images : gmap string string;
  Parts : DockerImageParts
}.

(** ** Go's [path.Join] and [filepath.Abs] (on a Unix system) *)

Module path.

Definition slash : Ascii.ascii := "/"%char.

(** The components of a path between its slashes. *)
Fixpoint split (acc : string) (s : string) : list string :=
  match s with
  | EmptyString => [String.rev acc]
  | String c s' =>
      if Ascii.eqb c slash then String.rev acc :: split EmptyString s'
      else split (String c acc) s'
  end.

(** One component pushed on the (reversed) stack of kept components:
    empty and [.] components are dropped, [..] removes the component
    before it, is dropped at the root and kept otherwise. *)
Definition push (rooted : bool) (stack : list string) (c : string)
  : list string :=
  if String.eqb c "" || String.eqb c "." then stack
  else if String.eqb c ".." then
    match stack with
    | [] => if rooted then [] else [".."]
    | top :: below =>
        if String.eqb top ".." then ".." :: stack else below
    end
  else c :: stack.

Definition IsAbs (p : string) : bool :=
  match p with
  | String c _ => Ascii.eqb c slash
  | EmptyString => false
  end.

Fixpoint concat_with (sep : string) (l : list string) : string :=
  match l with
  | [] => ""
  | [x] => x
  | x :: rest => (x ++ sep ++ concat_with sep rest)%string
  end.

Definition Clean (p : string) : string :=
  let rooted := IsAbs p in
  let kept := rev (fold_left (push rooted) (split EmptyString p) []) in
  let out := ((if rooted then "/" else "") ++ concat_with "/" kept)%string in
  if String.eqb out "" then "." else out.

(** [path.Join]: the non-empty elements joined by slashes and cleaned;
    the empty string when every element is empty. *)
Definition Join (elem : list string) : string :=
  match filter (λ e, e ≠ "") elem with
  | [] => ""
  | l => Clean (concat_with "/" l)
  end.

(** The paths from the top down to the cleaned path itself, the root (or
    the working directory) left out: [/a/b/c] gives [/a], [/a/b] and
    [/a/b/c]. *)
Fixpoint prefixes (acc : string) (comps : list string) : list string :=
  match comps with
  | [] => []
  | c :: rest =>
      let p := (acc ++ c)%string in p :: prefixes (p ++ "/")%string rest
  end.

Definition chain (p : string) : list string :=
  let rooted := IsAbs p in
  prefixes (if rooted then "/" else "")
    (rev (fold_left (push rooted) (split EmptyString p) [])).

(** The directories a path lies in, from the top down. *)
Definition ancestors (p : string) : list string := removelast (chain p).

End path.

(** ** Errors *)

Inductive errno := EEXIST | ENOENT | EISDIR | ENOTDIR | ENOTEMPTY | EINVAL | EIO.

(** [os.IsExist]. *)
Definition os_IsExist (e : errno) : bool :=
  match e with
  | EEXIST | ENOTEMPTY => true
  | _ => false
  end.

#[local] Set Warnings "-register-all,-clear-no-such-hyp".

(** The error values [fetch.go] returns or stores.  The messages built with
    [fmt.Errorf] are kept as constructors with the values they print. *)
Inductive error :=
  | PathError (op : string) (file : string) (e : errno)
  | ErrInvalid
  | ErrBodyRead
  | ErrClientGet (url : string)
  | ErrGetwd
  | ErrUnmarshal
  (* "Unexpected status code in response to Horizon Pkg fetch: %v" *)
  | ErrUnexpectedStatus (status : Z)
  (* "Error in pkg file: Meta.Provides is expected to contain metadata about
     each part and it is missing info about part %v" *)
  | ErrMissingProvides (part : DockerImagePart)
  (* "IO copy from HTTP response body failed on part: %v. Error: %v" *)
  | ErrIOCopy (partPath : string) (cause : error)
  (* "Failed to complete download of %v" *)
  | ErrDownload (partPath : string)
  (* VerificationError{msg} *)
  | VerificationError (msg : string)
  (* "Error fetching parts. Errors: %v", with the recorder's map *)
  | ErrFetchingParts (errs : gmap string (option error)).

(** ** The outside world *)

(** What [client.Get] gives back: an error, or a response with its status
    code and body.  The body is a stream: [body_fails] says that reading it
    ends in an error after [body_bytes] have been delivered. *)
Inductive http_result :=
  | GetErr
  | GetOk (status : Z) (body_bytes : list byte) (body_fails : bool).

Record Env := mkEnv {
  (* the answer of the HTTP client to a GET of a URL *)
  client_Get : string → http_result;
  (* json.Unmarshal into a horizonpkg.Pkg *)
  json_Unmarshal : list byte → option Pkg;
  (* os.Getwd, used by filepath.Abs *)
  os_Getwd : option string
}.

(** A file or a directory is known by its path, as the code builds it with
    [path.Join].  The root [/] and the working directory [.] always exist;
    every other directory is listed in [dirs].  A world is read as a file
    system: what exists lies in directories that exist. *)
Record World := mkWorld {
  (* regular files and their content *)
  files : gmap string (list byte);
  (* directories *)
  dirs : gset string;
  (* the URLs of the GET requests issued so far, oldest first *)
  gets : list string
}.

Definition set_files (fs : gmap string (list byte)) (w : World) : World :=
  {| files := fs; dirs := dirs w; gets := gets w |}.

Definition set_dirs (ds : gset string) (w : World) : World :=
  {| files := files w; dirs := ds; gets := gets w |}.

(** One GET request goes out. *)
Definition log_get (url : string) (w : World) : World :=
  {| files := files w; dirs := dirs w; gets := gets w ++ [url] |}.

(** An open [*os.File]: the name it was opened with.  [fetch.go] writes to
    a handle at most once, right after opening it, so the write position is
    always the start of the file.  The nil pointer is [None]. *)
Definition os_File := string.

(** A path that names a directory. *)
Definition is_dir (name : string) (w : World) : bool :=
  String.eqb name "/" || String.eqb name "." || bool_decide (name ∈ dirs w).

(** The walk down the directories a path lies in: it stops at the first
    that is a regular file (ENOTDIR) or that does not exist (ENOENT). *)
Fixpoint walk (ancs : list string) (w : World) : option errno :=
  match ancs with
  | [] => None
  | a :: rest =>
      match files w !! a with
      | Some _ => Some ENOTDIR
      | None => if bool_decide (a ∈ dirs w) then walk rest w else Some ENOENT
      end
  end.

(** The error, if any, of opening [name] for writing with O_CREATE. *)
Definition open_error (name : string) (w : World) : option errno :=
  if decide (name = "") then Some ENOENT
  else if is_dir name w then Some EISDIR
  else walk (path.ancestors name) w.

(** [os.OpenFile(name, os.O_RDWR|os.O_CREATE, 0600)]: an existing regular
    file is opened as it is (there is no O_EXCL and no O_TRUNC), a missing
    one is created empty in its directory, which has to exist.  On an error
    the file is nil. *)
Definition os_OpenFile (name : string) (w : World)
  : World * (option os_File * option errno) :=
  match open_error name w with
  | Some e => (w, (None, Some e))
  | None =>
      match files w !! name with
      | Some _ => (w, (Some name, None))
      | None => (set_files (<[name := []]> (files w)) w, (Some name, None))
      end
  end.

(** [os.Stat(name)], of which only [Size()] is used. *)
Definition os_Stat (name : string) (w : World) : Z + errno :=
  match files w !! name with
  | Some content => inl (Z.of_nat (length content))
  | None => if is_dir name w then inl 4096 else inr ENOENT
  end.

(** [os.Remove(name)] of a regular file. *)
Definition os_Remove (name : string) (w : World) : World * option error :=
  match files w !! name with
  | Some _ => (set_files (delete name (files w)) w, None)
  | None =>
      if is_dir name w then (w, Some (PathError "remove" name ENOTEMPTY))
      else (w, Some (PathError "remove" name ENOENT))
  end.

(** [ioutil.WriteFile(name, content, 0600)]: creates or truncates, in a
    directory that has to exist. *)
Definition ioutil_WriteFile (name : string) (content : list byte) (w : World)
  : World * option error :=
  match open_error name w with
  | Some e => (w, Some (PathError "open" name e))
  | None => (set_files (<[name := content]> (files w)) w, None)
  end.

(** The first regular file on the way down a path. *)
Fixpoint first_file (ps : list string) (w : World) : option string :=
  match ps with
  | [] => None
  | p :: rest =>
      match files w !! p with
      | Some _ => Some p
      | None => first_file rest w
      end
  end.

(** [os.MkdirAll(name, 0700)]: the directory is made with every directory
    above it that is missing.  Directories that exist are not an error; a
    regular file on the way is, and then nothing is made. *)
Definition os_MkdirAll (name : string) (w : World) : World * option error :=
  if decide (name = "") then (w, Some (PathError "mkdir" name ENOENT))
  else match first_file (path.chain name) w with
       | Some p => (w, Some (PathError "mkdir" p ENOTDIR))
       | None => (set_dirs (list_to_set (path.chain name) ∪ dirs w) w, None)
       end.

(** Writing [data] over [old] from the start of the file: what lies beyond
    the written bytes stays. *)
Definition overwrite (old data : list byte) : list byte :=
  data ++ drop (length data) old.

(** [io.Copy(f, response.Body)]: the bytes the body delivers are written to
    the file, and their count is returned with the error that ended the
    copy.  A nil [*os.File] refuses every write with [os.ErrInvalid]; an
    empty body asks for no write, and so the copy to the nil file ends as
    the body does: without an error when it ends well. *)
Definition io_Copy (f : option os_File) (body : list byte) (body_fails : bool)
    (w : World) : World * (Z * option error) :=
  match f with
  | None =>
      match body with
      | [] => (w, (0, if body_fails then Some ErrBodyRead else None))
      | _ :: _ => (w, (0, Some ErrInvalid))
      end
  | Some name =>
      let old := default [] (files w !! name) in
      (set_files (<[name := overwrite old body]> (files w)) w,
       (Z.of_nat (length body), if body_fails then Some ErrBodyRead else None))
  end.

(** [filepath.Abs]: an absolute path is cleaned, another one is joined to
    the working directory; it fails when that is not known. *)
Definition filepath_Abs (env : Env) (p : string) : string * option error :=
  if path.IsAbs p then (path.Clean p, None)
  else match os_Getwd env with
       | Some wd => (path.Join [wd; p], None)
       | None => ("", Some ErrGetwd)
       end.

(** ** [fetch.go] *)

(** What a call comes to: it returns its error value (nil is [None]), or the
    goroutine panics on a nil pointer. *)
Inductive outcome :=
  | Return (err : option error)
  | Panic.

Definition writeFile (destinationDir fileName : string) (content : list byte)
    (w : World) : World * (string * option error) :=
  let destFilePath := path.Join [destinationDir; fileName] in
  match ioutil_WriteFile destFilePath content w with
  | (w, Some err) => (w, ("", Some err))
  | (w, None) => (w, (destFilePath, None))
  end.

(** Side effect: stores the manifest in [destinationDir].  The error of
    [ioutil.ReadAll] is dropped by the code, so a body that fails is decoded
    from the bytes read so far. *)
Definition fetchPkgMeta (env : Env) (pkgURL destinationDir : string)
    (w : World) : World * (Pkg + error) :=
  let w := log_get pkgURL w in
  match client_Get env pkgURL with
  | GetErr => (w, inr (ErrClientGet pkgURL))
  | GetOk status rawBody _ =>
      if negb (Z.eqb status 200) then (w, inr (ErrUnexpectedStatus status))
      else match json_Unmarshal env rawBody with
           | None => (w, inr ErrUnmarshal)
           | Some pkg =>
               match writeFile destinationDir (Pkg_ID pkg ++ ".json")%string rawBody w with
               | (w, (_, Some err)) => (w, inr err)
               | (w, (_, None)) => (w, inl pkg)
               end
           end
  end.

(** The loop of [precheckPkgParts] over the parts in the order the range
    statement yields them. *)
Fixpoint precheck_loop (images : gmap string string)
    (parts : list (string * DockerImagePart)) : option error :=
  match parts with
  | [] => None
  | (_, part) :: rest =>
      match images !! Part_ID part with
      | None => Some (ErrMissingProvides part)
      | Some _ => precheck_loop images rest
      end
  end.

Definition precheckPkgParts (pkg : Pkg) : option error :=
  precheck_loop (Meta_Provides_Images pkg) (map_to_list (Parts pkg)).

Definition tryOpen (partPath : string) (w : World)
  : World * (option os_File * option errno) :=
  os_OpenFile partPath w.

(** [f.Close()] on nil only returns an error, [f.Name()] on nil is a nil
    dereference: [None] is that panic. *)
Definition tryRemove (f : option os_File) (w : World)
  : option (World * option error) :=
  match f with
  | None => None
  | Some name => Some (os_Remove name w)
  end.

(** Lines 145-176: the loop over the sources, with the current [partFile]. *)
Fixpoint download (env : Env) (partPath : string) (expectedBytes : Z)
    (sources : list PartSource) (partFile : option os_File) (w : World)
  : World * outcome :=
  match sources with
  | [] => (w, Return (Some (ErrDownload partPath)))
  | source :: rest =>
      let w := log_get (URL source) w in
      match client_Get env (URL source) with
      | GetErr => download env partPath expectedBytes rest partFile w
      | GetOk status body body_fails =>
          if negb (Z.eqb status 200) then
            download env partPath expectedBytes rest partFile w
          else
            match io_Copy partFile body body_fails w with
            | (w, (_, Some err)) => (w, Return (Some (ErrIOCopy partPath err)))
            | (w, (bytes, None)) =>
                if negb (Z.eqb bytes expectedBytes) then
                  (* ignore error, give it another shot *)
                  match tryRemove partFile w with
                  | None => (w, Panic)
                  | Some (w, _) =>
                      match tryOpen partPath w with
                      | (w, (_, Some openErr)) =>
                          (w, Return (Some (PathError "open" partPath openErr)))
                      | (w, (partFile, None)) =>
                          download env partPath expectedBytes rest partFile w
                      end
                  end
                else (w, Return None)
            end
      end
  end.

(** Lines 137-141 and the loop after them. *)
Definition reopen (env : Env) (partPath : string) (expectedBytes : Z)
    (sources : list PartSource) (w : World) : World * outcome :=
  match tryOpen partPath w with
  | (w, (_, Some openErr)) => (w, Return (Some (PathError "open" partPath openErr)))
  | (w, (partFile, None)) => download env partPath expectedBytes sources partFile w
  end.

Definition remove_reopen (env : Env) (partPath : string) (expectedBytes : Z)
    (sources : list PartSource) (partFile : option os_File) (w : World)
  : World * outcome :=
  match tryRemove partFile w with
  | None => (w, Panic)
  | Some (w, Some err) => (w, Return (Some err))
  | Some (w, None) => reopen env partPath expectedBytes sources w
  end.

Definition fetchPkgPart (env : Env) (partPath : string) (expectedBytes : Z)
    (sources : list PartSource) (w : World) : World * outcome :=
  match tryOpen partPath w with
  | (w, (partFile, Some openErr)) =>
      if os_IsExist openErr then
        match os_Stat partPath w with
        | inr _ => remove_reopen env partPath expectedBytes sources partFile w
        | inl size =>
            if Z.eqb size expectedBytes then (w, Return None)
            else remove_reopen env partPath expectedBytes sources partFile w
        end
      else
        (* we are clean, try download *)
        download env partPath expectedBytes sources partFile w
  | (w, (partFile, None)) =>
      download env partPath expectedBytes sources partFile w
  end.

(** All provided signatures must match keys in [userKeysDir]: the body is
    the one the source has, which touches no file and returns the error. *)
Definition verifyPkgPart (userKeysDir partPath : string)
    (signatures : list string) (w : World) : World * option error :=
  (w, Some (VerificationError
             ("Verification of failed of part " ++ partPath)%string)).

(** ** The orchestrator

    [fetchAndVerify] starts one goroutine per part.  Their shared state is
    the world, the recorder's map [fetchErrs.Errors] (a Go map whose values
    may be nil, here [None]) and the slice [fetched].  A goroutine is a
    small machine whose states are the points between its calls; a
    schedule, the list of the goroutines that move next, interleaves them.
    A call of [fetchPkgPart], of [verifyPkgPart] or of [addResult] (which
    holds the lock) is one move, and so is the read of the map's length on
    line 235, which the code does without the lock.  Every schedule is
    completed by the join, so the results below hold for every
    interleaving of these moves. *)

Inductive pc :=
  | PFetch                          (* before fetchPkgPart *)
  | PAdd1 (err : option error)      (* before the first addResult *)
  | PCheck                          (* before len(fetchErrs.Errors) == 0 *)
  | PVerify                         (* before verifyPkgPart *)
  | PAdd2 (err : option error)      (* before the second addResult *)
  | PDone                           (* group.Done() *)
  | PPanic.                         (* nil dereference in the goroutine *)

Record task := mkTask { t_name : string; t_part : DockerImagePart; t_pc : pc }.

Record orch := mkOrch {
  o_world : World;
  o_errors : gmap string (option error);
  o_fetched : list string
}.

Definition set_pc (p : pc) (t : task) : task :=
  {| t_name := t_name t; t_part := t_part t; t_pc := p |}.

Definition set_world (w : World) (o : orch) : orch :=
  {| o_world := w; o_errors := o_errors o; o_fetched := o_fetched o |}.

(** The closure [addResult] of lines 196-214. *)
Definition addResult (env : Env) (id : string) (err : option error)
    (partPath : string) (o : orch) : orch :=
  match err with
  | Some e =>
      (* record failures *)
      {| o_world := o_world o;
         o_errors := <[id := Some e]> (o_errors o);
         o_fetched := o_fetched o |}
  | None =>
      if decide (partPath ≠ "") then
        (* success *)
        let '(abs, err) := filepath_Abs env partPath in
        let fetched :=
          match err with
          | Some _ => o_fetched o ++ [abs]
          | None => o_fetched o
          end in
        {| o_world := o_world o;
           o_errors := <[id := err]> (o_errors o);
           o_fetched := fetched |}
      else o
  end.

(** One move of the goroutine of lines 223-240. *)
Definition task_step (env : Env) (destinationDir userKeysDir : string)
    (t : task) (o : orch) : task * orch :=
  let name := t_name t in
  let part := t_part t in
  let partPath := path.Join [destinationDir; name] in
  match t_pc t with
  | PFetch =>
      match fetchPkgPart env partPath (Bytes part) (Sources part) (o_world o) with
      | (w, Return err) => (set_pc (PAdd1 err) t, set_world w o)
      | (w, Panic) => (set_pc PPanic t, set_world w o)
      end
  | PAdd1 err => (set_pc PCheck t, addResult env name err partPath o)
  | PCheck =>
      if decide (size (o_errors o) = 0%nat) then (set_pc PVerify t, o)
      else (set_pc PDone t, o)
  | PVerify =>
      match verifyPkgPart userKeysDir partPath (Signatures part) (o_world o) with
      | (w, err) => (set_pc (PAdd2 err) t, set_world w o)
      end
  | PAdd2 err => (set_pc PDone t, addResult env name err partPath o)
  | PDone => (t, o)
  | PPanic => (t, o)
  end.

(** The goroutine with index [i] moves; an index that names none does
    nothing. *)
Definition sched_step (env : Env) (destinationDir userKeysDir : string)
    (st : list task * orch) (i : nat) : list task * orch :=
  match st.1 !! i with
  | Some t =>
      let '(t', o') := task_step env destinationDir userKeysDir t st.2 in
      (<[i := t']> st.1, o')
  | None => st
  end.

Definition run_sched (env : Env) (destinationDir userKeysDir : string)
    (sched : list nat) (st : list task * orch) : list task * orch :=
  fold_left (sched_step env destinationDir userKeysDir) sched st.

(** No goroutine needs more than five moves. *)
Definition task_moves : nat := 5.

(** [group.Wait()]: every goroutine that has not finished runs to its
    end. *)
Definition join_sched (n : nat) : list nat :=
  flat_map (replicate task_moves) (seq 0 n).

(** The goroutines started by the range loop of line 218. *)
Definition launch (parts : DockerImageParts) : list task :=
  (λ np, mkTask np.1 np.2 PFetch) <$> map_to_list parts.

(** What [fetchAndVerify] and [PkgFetch] come to: the process dies of a
    panic in a goroutine, or the call returns its slice (nil is [[]]) and
    its error.  A goroutine that panics is marked and moves no more.  The
    program dies with it; the model lets the schedule run on and reports
    [Crashed] at the join, so that of a crashed run only what holds at
    every point of a run is said of the program. *)
Inductive fetch_result :=
  | Crashed
  | Returned (fetched : list string) (err : option error).

Definition panicked (t : task) : bool :=
  match t_pc t with PPanic => true | _ => false end.

Definition fetchAndVerify (env : Env) (sched : list nat)
    (parts : DockerImageParts) (destinationDir userKeysDir : string)
    (w : World) : World * fetch_result :=
  let fetchErrs : gmap string (option error) := ∅ in
  let st0 := (launch parts, mkOrch w fetchErrs []) in
  let st1 := run_sched env destinationDir userKeysDir sched st0 in
  let '(tasks, o) :=
    run_sched env destinationDir userKeysDir (join_sched (length st1.1)) st1 in
  if existsb panicked tasks then (o_world o, Crashed)
  else if decide (0 < size (o_errors o))%nat then
    (o_world o, Returned [] (Some (ErrFetchingParts (o_errors o))))
  else (o_world o, Returned (o_fetched o) None).

Definition PkgFetch (env : Env) (sched : list nat)
    (pkgURL destinationDir userKeysDir : string) (w : World)
  : World * fetch_result :=
  match fetchPkgMeta env pkgURL destinationDir w with
  | (w, inr err) => (w, Returned [] (Some err))
  | (w, inl pkg) =>
      match precheckPkgParts pkg with
      | Some err => (w, Returned [] (Some err))
      | None =>
          (* make pkg subdirectory in destination directory *)
          let pkgDir := path.Join [destinationDir; Pkg_ID pkg] in
          match os_MkdirAll pkgDir w with
          | (w, Some err) => (w, Returned [] (Some err))
          | (w, None) =>
              match fetchAndVerify env sched (Parts pkg) destinationDir
                      userKeysDir w with
              | (w, Crashed) => (w, Crashed)
              | (w, Returned _ (Some err)) => (w, Returned [] (Some err))
              | (w, Returned fetched None) => (w, Returned fetched None)
              end
          end
      end
  end.

(** ** Vocabulary of the properties *)

(** How the attempt on one source ends, read off the answer of the client:
    the GET is refused (an error or a status other than 200), the body
    breaks while it is streamed, or it streams to its end with a byte count
    that is or is not the expected one. *)
Inductive attempt := Refused | Broken | Short | Exact.

Definition classify (env : Env) (expectedBytes : Z) (source : PartSource)
  : attempt :=
  match client_Get env (URL source) with
  | GetErr => Refused
  | GetOk status body body_fails =>
      if negb (Z.eqb status 200) then Refused
      else if body_fails then Broken
      else if Z.eqb (Z.of_nat (length body)) expectedBytes then Exact
      else Short
  end.

Definition refused (env : Env) (expectedBytes : Z) (s : PartSource) : bool :=
  match classify env expectedBytes s with Refused => true | _ => false end.

(** A source that does not end the loop: refused, or of the wrong size. *)
Definition passed_over (env : Env) (expectedBytes : Z) (s : PartSource)
  : bool :=
  match classify env expectedBytes s with
  | Refused | Short => true
  | _ => false
  end.

(** The bytes the client delivers for a source. *)
Definition body_of (env : Env) (source : PartSource) : list byte :=
  match client_Get env (URL source) with
  | GetErr => []
  | GetOk _ body _ => body
  end.

(** Several GET requests go out, in order. *)
Definition log_gets (urls : list string) (w : World) : World :=
  {| files := files w; dirs := dirs w; gets := gets w ++ urls |}.

(** A path that [os.OpenFile] can open or create as a regular file: it is
    not empty, it names no directory, and the directories it lies in all
    exist. *)
Definition openable (name : string) (w : World) : bool :=
  match open_error name w with
  | None => true
  | Some _ => false
  end.

(** The world after a successful [os.OpenFile]. *)
Definition opened (name : string) (w : World) : World :=
  match files w !! name with
  | Some _ => w
  | None => set_files (<[name := []]> (files w)) w
  end.

(** The world after one source that did not end the loop: a body of the
    wrong size leaves the file empty. *)
Definition pass_over (env : Env) (partPath : string) (expectedBytes : Z)
    (w : World) (s : PartSource) : World :=
  match classify env expectedBytes s with
  | Short => set_files (<[partPath := []]> (files w)) (log_get (URL s) w)
  | _ => log_get (URL s) w
  end.

(** The moves a goroutine has left at most. *)
Definition moves_left (p : pc) : nat :=
  match p with
  | PFetch => 5
  | PAdd1 _ => 4
  | PCheck => 3
  | PVerify => 2
  | PAdd2 _ => 1
  | PDone | PPanic => 0
  end.

(** How often the goroutine [j] moves in a schedule. *)
Definition occurrences (j : nat) (sched : list nat) : nat :=
  length (filter (λ i, i = j) sched).

(** Where [fetchPkgMeta] stores the manifest of a package. *)
Definition manifest_path (destinationDir : string) (pkg : Pkg) : string :=
  path.Join [destinationDir; (Pkg_ID pkg ++ ".json")%string].

(** A source whose body streams to its end with the wrong byte count. *)
Definition short (env : Env) (expectedBytes : Z) (s : PartSource) : bool :=
  match classify env expectedBytes s with Short => true | _ => false end.

(** A source that answers the GET with status 200 and delivers at least
    one byte. *)
Definition answers (env : Env) (s : PartSource) : bool :=
  match client_Get env (URL s) with
  | GetErr => false
  | GetOk status [] _ => false
  | GetOk status (_ :: _) _ => Z.eqb status 200
  end.

(** The error of the copy to a nil file, for a source that answers the GET
    with status 200: the refused write when the body delivers a byte, the
    error of the body when it breaks before its first byte. *)
Definition nil_copy_error (env : Env) (s : PartSource) : option error :=
  match client_Get env (URL s) with
  | GetErr => None
  | GetOk status body body_fails =>
      if Z.eqb status 200 then
        match body with
        | _ :: _ => Some ErrInvalid
        | [] => if body_fails then Some ErrBodyRead else None
        end
      else None
  end.

(** A source that answers the GET with status 200 and an empty body that
    ends well. *)
Definition empty_answer (env : Env) (s : PartSource) : bool :=
  match client_Get env (URL s) with
  | GetOk status [] false => Z.eqb status 200
  | _ => false
  end.

(** No source of any part answers with an empty body. *)
Definition no_empty_answer (env : Env) (parts : DockerImageParts) : Prop :=
  ∀ name part s,
    parts !! name = Some part → s ∈ Sources part → empty_answer env s = false.

(** What holds of every goroutine along a run, panics or not: one that is
    done has seen an entry in the recorder's map, and the verifier's result
    is an error. *)
Definition settled (o : orch) (t : task) : Prop :=
  match t_pc t with
  | PDone => o_errors o ≠ ∅
  | PAdd2 err => err ≠ None
  | _ => True
  end.

(** What the part file holds when the loop has gone past the sources
    [pre]: nothing once one of them was of the wrong size, else what it
    held before. *)
Definition content_before (env : Env) (expectedBytes : Z)
    (pre : list PartSource) (old : list byte) : list byte :=
  if existsb (short env expectedBytes) pre then [] else old.

(** The errors [fetchPkgPart] builds for the part at [partPath]. *)
Definition fetch_error (partPath : string) (e : error) : bool :=
  match e with
  | ErrDownload p => String.eqb p partPath
  | ErrIOCopy p _ => String.eqb p partPath
  | PathError op p _ => String.eqb op "open" && String.eqb p partPath
  | _ => false
  end.

(** What [addResult] may store for the part [name]: nil, the error of
    [filepath.Abs], or an error of the download of that part. *)
Definition stored_by_download (destinationDir name : string)
    (v : option error) : Prop :=
  v = None ∨ v = Some ErrGetwd
  ∨ ∃ e, v = Some e ∧ fetch_error (path.Join [destinationDir; name]) e = true.

(** A URL of a declared source of some part. *)
Definition declared (parts : DockerImageParts) (url : string) : Prop :=
  ∃ name part s,
    parts !! name = Some part ∧ s ∈ Sources part ∧ url = URL s.

(** The parts the goroutines were started for. *)
Definition idents (tasks : list task) : list (string * DockerImagePart) :=
  (λ t, (t_name t, t_part t)) <$> tasks.

(** An invariant of the orchestrator: the goroutines are those of the
    parts, [G] holds of the shared state and [L] of every goroutine. *)
Definition orch_inv (parts : DockerImageParts) (G : orch → Prop)
    (L : orch → task → Prop) (st : list task * orch) : Prop :=
  idents st.1 = map_to_list parts ∧ G st.2 ∧ Forall (L st.2) st.1.

(** The goroutines and the shared state at the return of [group.Wait()]. *)
Definition final_state (env : Env) (destinationDir userKeysDir : string)
    (sched : list nat) (parts : DockerImageParts) (w : World)
  : list task * orch :=
  run_sched env destinationDir userKeysDir
    (sched ++ join_sched (length (launch parts)))
    (launch parts, mkOrch w ∅ []).

(** The download of a part has put its path under its name, and no
    goroutine goes on to the verifier. *)
Definition entered (env : Env) (destinationDir : string) (o : orch) (t : task)
  : Prop :=
  match t_pc t with
  | PFetch => True
  | PAdd1 None => True
  | PAdd1 (Some e) =>
      fetch_error (path.Join [destinationDir; t_name t]) e = true
  | PCheck | PDone => is_Some (o_errors o !! t_name t)
  | PPanic => True
  | PVerify | PAdd2 _ => False
  end.

(** The first source of a part that is past its download was asked. *)
Definition asked (o : orch) (t : task) : Prop :=
  match t_pc t with
  | PFetch => True
  | _ => ∀ s rest, Sources (t_part t) = s :: rest →
                   URL s ∈ gets (o_world o)
  end.

(** ** A small package, its mirrors and some worlds

    The concrete inputs on which the properties below are run. *)

Module Demo.

Definition a : byte := x61.
Definition b : byte := x62.
Definition c : byte := x63.

Fixpoint bytes_eqb (l1 l2 : list byte) : bool :=
  match l1, l2 with
  | [], [] => true
  | x :: l1, y :: l2 => Byte.eqb x y && bytes_eqb l1 l2
  | _, _ => false
  end.

(** The manifest document, [{}] on the wire. *)
Definition manifest : list byte := [x7b; x7d].

Definition manifestURL : string := "http://m/pkg.json".

(** Six mirrors: the first serves the three bytes of the part, the second
    cannot be reached, the third serves one byte only, the fourth breaks
    after two bytes, the fifth answers 500, the sixth answers 200 with an
    empty body. *)
Definition m1 : PartSource := mkSource "http://m1/p".
Definition m2 : PartSource := mkSource "http://m2/p".
Definition m3 : PartSource := mkSource "http://m3/p".
Definition m4 : PartSource := mkSource "http://m4/p".
Definition m5 : PartSource := mkSource "http://m5/p".
Definition m6 : PartSource := mkSource "http://m6/p".

Definition get (url : string) : http_result :=
  if String.eqb url manifestURL then GetOk 200 manifest false
  else if String.eqb url (URL m1) then GetOk 200 [c; c; c] false
  else if String.eqb url (URL m3) then GetOk 200 [c] false
  else if String.eqb url (URL m4) then GetOk 200 [c; c] true
  else if String.eqb url (URL m5) then GetOk 500 [] false
  else if String.eqb url (URL m6) then GetOk 200 [] false
  else GetErr.

(** The client, with the package the manifest decodes to. *)
Definition env (decoded : Pkg) : Env :=
  {| client_Get := get;
     json_Unmarshal := λ raw,
       if bytes_eqb raw manifest then Some decoded else None;
     os_Getwd := Some "/" |}.

Definition part : DockerImagePart := mkPart "img" 3 [m1] [].

(** One part [p] with its provenance entry. *)
Definition pkg : Pkg := mkPkg "pkg" {[ "img" := "repo:tag" ]} {[ "p" := part ]}.

(** The same package without the provenance entry. *)
Definition pkg_unlisted : Pkg := mkPkg "pkg" ∅ {[ "p" := part ]}.

(** A package without parts. *)
Definition pkg_empty : Pkg := mkPkg "pkg" ∅ ∅.

(** The destination directory [/d] exists and is empty. *)
Definition fresh : World := mkWorld ∅ {[ "/d" ]} [].

(** [/d/p] is already there with the three expected bytes. *)
Definition complete : World := mkWorld {[ "/d/p" := [a; a; a] ]} {[ "/d" ]} [].

(** [/d/p] is already there with five bytes. *)
Definition longer : World :=
  mkWorld {[ "/d/p" := [b; b; b; b; b] ]} {[ "/d" ]} [].


(** A second part [q], served by the mirror that breaks. *)
Definition part_q : DockerImagePart := mkPart "img2" 3 [m4; m1] [].

(** Two parts with their provenance entries. *)
Definition pkg2 : Pkg :=
  mkPkg "pkg" {[ "img" := "repo:tag"; "img2" := "repo:tag2" ]}
    {[ "p" := part; "q" := part_q ]}.

(** A regular file sits where the package subdirectory should go. *)
Definition blocked : World := mkWorld {[ "/d/pkg" := [a] ]} {[ "/d" ]} [].

(** A part [e] of three bytes whose only mirror sends an empty body. *)
Definition part_e : DockerImagePart := mkPart "img" 3 [m6] [].

Definition pkg_e : Pkg :=
  mkPkg "pkg" {[ "img" := "repo:tag" ]} {[ "e" := part_e ]}.

End Demo.

(** ** Proof steps *)

(** The conjuncts of a goal, each left as it is written. *)
Ltac conjuncts := intros; repeat match goal with |- _ ∧ _ => split end.

(** A closed equation or membership, by evaluation. *)
Ltac run :=
  match goal with
  | |- _ = _ => vm_compute; reflexivity
  | |- _ ∈ _ => vm_compute; reflexivity
  end.

(** ** The file system model *)

Section os_facts.

Implicit Types (w : World) (name : string).

Lemma walk_None ancs w :
  walk ancs w = None
  ↔ Forall (λ a, files w !! a = None ∧ a ∈ dirs w) ancs.
Proof.
  induction ancs as [|a ancs IH]; simpl; [done|].
  rewrite Forall_cons, <- IH. destruct (files w !! a); [naive_solver|].
  destruct (bool_decide_reflect (a ∈ dirs w)); naive_solver.
Qed.

Lemma walk_error ancs w e : walk ancs w = Some e → os_IsExist e = false.
Proof.
  induction ancs as [|a ancs IH]; simpl; [done|].
  destruct (files w !! a); [by intros [= <-]|].
  destruct (bool_decide _); [done | by intros [= <-]].
Qed.

Lemma is_dir_false name w : is_dir name w = false → name ∉ dirs w.
Proof.
  unfold is_dir. rewrite !orb_false_iff. intros (_ & Hd).
  by apply bool_decide_eq_false in Hd.
Qed.

Lemma is_dir_dirs name w w' : dirs w' = dirs w → is_dir name w' = is_dir name w.
Proof. unfold is_dir. by intros ->. Qed.

Lemma open_error_ext name w w' :
  files w' = files w → dirs w' = dirs w →
  open_error name w' = open_error name w.
Proof.
  intros Hf Hd. unfold open_error, is_dir. rewrite Hd.
  destruct (decide (name = "")); [done|]. destruct (_ || _); [done|].
  induction (path.ancestors name) as [|a l IH]; simpl; [done|].
  by rewrite Hf, Hd, IH.
Qed.

Lemma openable_spec name w :
  openable name w = true
  ↔ name ≠ "" ∧ is_dir name w = false
    ∧ Forall (λ a, files w !! a = None ∧ a ∈ dirs w) (path.ancestors name).
Proof.
  unfold openable, open_error. rewrite <- walk_None.
  destruct (decide (name = "")); [naive_solver|].
  destruct (is_dir name w); [naive_solver|].
  destruct (walk _ w); naive_solver.
Qed.

(** What is done to the file itself does not change whether it can be
    opened. *)
Lemma openable_files name w w' :
  openable name w = true →
  dirs w' = dirs w →
  (∀ q, q ≠ name → files w' !! q = files w !! q) →
  openable name w' = true.
Proof.
  rewrite !openable_spec. intros (Hne & Hnd & Hall) Hd Hf.
  split; [done|]. split; [by rewrite (is_dir_dirs _ _ _ Hd)|].
  apply is_dir_false in Hnd. eapply Forall_impl; [exact Hall|].
  intros a [Ha Hda]. rewrite Hd. split; [|done].
  rewrite Hf; [done|]. by intros ->.
Qed.

Lemma os_OpenFile_openable name w :
  openable name w = true →
  os_OpenFile name w = (opened name w, (Some name, None)).
Proof.
  unfold openable, os_OpenFile, opened.
  destruct (open_error name w); [done|]. by destruct (files w !! name).
Qed.

Lemma os_OpenFile_unopenable name w :
  openable name w = false →
  ∃ e, os_OpenFile name w = (w, (None, Some e)).
Proof.
  unfold openable, os_OpenFile.
  destruct (open_error name w) as [e|]; [by exists e | done].
Qed.

(** Without O_EXCL an open never reports that the file exists. *)
Lemma os_OpenFile_not_IsExist name w w' f e :
  os_OpenFile name w = (w', (f, Some e)) → os_IsExist e = false.
Proof.
  unfold os_OpenFile, open_error.
  destruct (decide (name = "")); [by intros [= <- <- <-]|].
  destruct (is_dir name w); [by intros [= <- <- <-]|].
  destruct (walk _ w) as [e'|] eqn:Hw.
  - intros [= <- <- <-]. by eapply walk_error.
  - by destruct (files w !! name).
Qed.

Lemma os_OpenFile_gets name w :
  gets (os_OpenFile name w).1 = gets w ∧ dirs (os_OpenFile name w).1 = dirs w.
Proof.
  unfold os_OpenFile. destruct (open_error name w); [done|].
  by destruct (files w !! name).
Qed.

(** The handle is nil exactly when the open fails. *)
Lemma os_OpenFile_handle name w :
  ((os_OpenFile name w).2.1 = None ∧ is_Some (os_OpenFile name w).2.2)
  ∨ ((os_OpenFile name w).2.1 = Some name ∧ (os_OpenFile name w).2.2 = None).
Proof.
  unfold os_OpenFile. destruct (open_error name w); [by left|].
  destruct (files w !! name); by right.
Qed.

Lemma os_Remove_gets name w :
  gets (os_Remove name w).1 = gets w ∧ dirs (os_Remove name w).1 = dirs w.
Proof.
  unfold os_Remove. destruct (files w !! name); [done|].
  by destruct (is_dir name w).
Qed.

Lemma io_Copy_gets f body fails w :
  gets (io_Copy f body fails w).1 = gets w
  ∧ dirs (io_Copy f body fails w).1 = dirs w.
Proof. destruct f; [done|]. by destruct body, fails. Qed.

Lemma opened_gets name w :
  gets (opened name w) = gets w ∧ dirs (opened name w) = dirs w.
Proof. unfold opened. by destruct (files w !! name). Qed.

Lemma opened_openable name w :
  openable name w = true → openable name (opened name w) = true.
Proof.
  intros Ho. apply (openable_files name w); [done|apply opened_gets|].
  intros q Hq. unfold opened. destruct (files w !! name); [done|].
  simpl. by rewrite lookup_insert_ne.
Qed.

Lemma opened_is_Some name w : is_Some (files (opened name w) !! name).
Proof.
  unfold opened. destruct (files w !! name) eqn:E; simpl.
  - by rewrite E.
  - rewrite lookup_insert_eq. by eexists.
Qed.

Lemma opened_log_gets name urls w :
  opened name (log_gets urls w) = log_gets urls (opened name w).
Proof. unfold opened, log_gets. simpl. by destruct (files w !! name). Qed.

Lemma openable_log_get name url w :
  openable name (log_get url w) = openable name w.
Proof. unfold openable. by rewrite (open_error_ext name w (log_get url w)). Qed.

Lemma openable_log_gets name urls w :
  openable name (log_gets urls w) = openable name w.
Proof. unfold openable. by rewrite (open_error_ext name w (log_gets urls w)). Qed.

Lemma log_gets_nil w : log_gets [] w = w.
Proof. destruct w. unfold log_gets. simpl. by rewrite app_nil_r. Qed.

Lemma log_gets_cons url urls w :
  log_gets urls (log_get url w) = log_gets (url :: urls) w.
Proof. unfold log_gets, log_get. simpl. by rewrite <- app_assoc. Qed.

Lemma log_gets_app urls1 urls2 w :
  log_gets urls2 (log_gets urls1 w) = log_gets (urls1 ++ urls2) w.
Proof. unfold log_gets. simpl. by rewrite <- app_assoc. Qed.

End os_facts.

(** ** The part downloader *)

Section downloader.

Context (env : Env) (partPath : string) (expectedBytes : Z).

Implicit Types (w : World) (sources pre rest : list PartSource).

Local Abbreviation download' := (download env partPath expectedBytes).
Local Abbreviation classify' := (classify env expectedBytes).
Local Abbreviation pass_over' := (pass_over env partPath expectedBytes).

(** The branch of lines 118-142 is never entered: the loop runs on
    whatever the first open gave. *)
Lemma fetchPkgPart_download sources w :
  fetchPkgPart env partPath expectedBytes sources w
  = download' sources (os_OpenFile partPath w).2.1 (os_OpenFile partPath w).1.
Proof.
  unfold fetchPkgPart, tryOpen.
  destruct (os_OpenFile partPath w) as [w1 [f [e|]]] eqn:E; simpl; [|done].
  by rewrite (os_OpenFile_not_IsExist _ _ _ _ _ E).
Qed.

Lemma fetchPkgPart_openable sources w :
  openable partPath w = true →
  fetchPkgPart env partPath expectedBytes sources w
  = download' sources (Some partPath) (opened partPath w).
Proof.
  intros Ho. rewrite fetchPkgPart_download.
  by rewrite (os_OpenFile_openable _ _ Ho).
Qed.

(** When the open fails the loop runs on the nil file. *)
Lemma fetchPkgPart_unopenable_download sources w :
  openable partPath w = false →
  fetchPkgPart env partPath expectedBytes sources w = download' sources None w.
Proof.
  intros Ho. rewrite fetchPkgPart_download.
  by destruct (os_OpenFile_unopenable _ _ Ho) as [e ->].
Qed.


Lemma download_refused s rest f w :
  classify' s = Refused →
  download' (s :: rest) f w = download' rest f (log_get (URL s) w).
Proof.
  unfold classify. simpl. destruct (client_Get env (URL s)); [done|].
  destruct (negb _); [done|]. destruct body_fails; [done|].
  by destruct (Z.eqb _ _).
Qed.

Lemma download_exact s rest w :
  classify' s = Exact →
  download' (s :: rest) (Some partPath) w
  = (set_files (<[partPath :=
                   overwrite (default [] (files w !! partPath)) (body_of env s)]>
                  (files w)) (log_get (URL s) w),
     Return None).
Proof.
  unfold classify, body_of. simpl.
  destruct (client_Get env (URL s)) as [|st body fails]; [done|].
  destruct (negb _); [done|]. destruct fails; [done|].
  simpl. destruct (Z.eqb _ _); [done|done].
Qed.

Lemma download_broken s rest w :
  classify' s = Broken →
  download' (s :: rest) (Some partPath) w
  = (set_files (<[partPath :=
                   overwrite (default [] (files w !! partPath)) (body_of env s)]>
                  (files w)) (log_get (URL s) w),
     Return (Some (ErrIOCopy partPath ErrBodyRead))).
Proof.
  unfold classify, body_of. simpl.
  destruct (client_Get env (URL s)) as [|st body fails]; [done|].
  destruct (negb _); [done|]. destruct fails; [done|].
  by destruct (Z.eqb _ _).
Qed.

(** A body of the wrong size: the file is removed and created again,
    empty. *)
Lemma download_short s rest w :
  classify' s = Short →
  openable partPath w = true →
  download' (s :: rest) (Some partPath) w
  = download' rest (Some partPath)
      (set_files (<[partPath := []]> (files w)) (log_get (URL s) w)).
Proof.
  intros Hc Ho. revert Hc.
  unfold classify. simpl.
  destruct (client_Get env (URL s)) as [|st body fails]; [done|].
  destruct (negb (Z.eqb st 200)); [done|]. destruct fails; [done|].
  simpl. destruct (Z.eqb _ _); [done|]. intros _. simpl.
  unfold os_Remove. simpl. rewrite lookup_insert_eq. simpl.
  unfold tryOpen.
  match goal with |- context [os_OpenFile partPath ?w2] =>
    assert (openable partPath w2 = true) as Ho2
  end.
  { apply (openable_files partPath w); [done|done|].
    intros q Hq. simpl. by rewrite lookup_delete_ne, lookup_insert_ne. }
  rewrite (os_OpenFile_openable _ _ Ho2). unfold opened. simpl.
  rewrite lookup_delete_eq. unfold set_files. simpl.
  by rewrite delete_insert_eq, insert_delete_eq.
Qed.

Lemma pass_over_facts pre w :
  let w1 := fold_left pass_over' pre w in
  gets w1 = gets w ++ (URL <$> pre)
  ∧ dirs w1 = dirs w
  ∧ (is_Some (files w !! partPath) → is_Some (files w1 !! partPath))
  ∧ (files w !! partPath = Some [] → files w1 !! partPath = Some [])
  ∧ (∀ q, q ≠ partPath → files w1 !! q = files w !! q).
Proof.
  revert w. induction pre as [|s pre IH]; intros w; simpl.
  - by rewrite app_nil_r.
  - destruct (IH (pass_over' w s)) as (Hg & Hd & Hf & He & Ho).
    rewrite Hg, Hd. clear Hg Hd. unfold pass_over in *.
    destruct (classify' s); simpl in *; rewrite <- ?app_assoc;
      (split; [done|]); (split; [done|]);
      (split; [|split]); try done.
    + intros _. apply Hf. rewrite lookup_insert_eq. by eexists.
    + intros _. apply He. by rewrite lookup_insert_eq.
    + intros q Hq. rewrite (Ho q Hq). by rewrite lookup_insert_ne.
Qed.

Lemma pass_over_openable pre w :
  openable partPath w = true →
  openable partPath (fold_left pass_over' pre w) = true.
Proof.
  intros Ho. destruct (pass_over_facts pre w) as (_ & Hd & _ & _ & Hf).
  by apply (openable_files partPath w).
Qed.

Lemma download_passed_over pre rest w :
  forallb (passed_over env expectedBytes) pre = true →
  openable partPath w = true →
  download' (pre ++ rest) (Some partPath) w
  = download' rest (Some partPath) (fold_left pass_over' pre w).
Proof.
  revert w. induction pre as [|s pre IH]; intros w Hp Ho; [done|].
  simpl in Hp. apply andb_true_iff in Hp as [Hs Hp].
  change ((s :: pre) ++ rest) with (s :: (pre ++ rest)).
  unfold passed_over in Hs. simpl fold_left. unfold pass_over at 2.
  destruct (classify' s) eqn:Hc; try done.
  - rewrite download_refused by done. apply IH; [done|].
    by rewrite openable_log_get.
  - rewrite download_short by done. apply IH; [done|].
    apply (openable_files partPath w); [done|done|].
    intros q Hq. simpl. by rewrite lookup_insert_ne.
Qed.

Lemma download_all_refused pre rest f w :
  forallb (refused env expectedBytes) pre = true →
  download' (pre ++ rest) f w = download' rest f (log_gets (URL <$> pre) w).
Proof.
  revert w. induction pre as [|s pre IH]; intros w Hp; simpl.
  - by rewrite log_gets_nil.
  - simpl in Hp. apply andb_true_iff in Hp as [Hs Hp].
    unfold refused in Hs. destruct (classify' s) eqn:Hc; try done.
    pose proof (download_refused s (pre ++ rest) f w Hc) as E.
    simpl in E. rewrite E. rewrite IH by done. by rewrite log_gets_cons.
Qed.

(** The requests that go out are those of the first sources, in order, and
    the first source is always asked. *)
Lemma download_gets sources f w :
  ∃ k, (sources ≠ [] → (0 < k)%nat)
       ∧ gets (download' sources f w).1 = gets w ++ (URL <$> take k sources).
Proof.
  revert f w. induction sources as [|s rest IH]; intros f w.
  - exists 0%nat. simpl. by rewrite app_nil_r.
  - assert (∀ f' w', gets w' = gets w ++ [URL s] →
              ∃ k, (s :: rest ≠ [] → (0 < k)%nat)
                   ∧ gets (download' rest f' w').1
                     = gets w ++ (URL <$> take k (s :: rest))) as Hnext.
    { intros f' w' Hw'. destruct (IH f' w') as (k & _ & Hk).
      exists (S k). split; [lia|]. rewrite Hk, Hw'. simpl.
      by rewrite <- app_assoc. }
    assert (∀ w', gets w' = gets w ++ [URL s] →
              ∃ k, (s :: rest ≠ [] → (0 < k)%nat)
                   ∧ gets w' = gets w ++ (URL <$> take k (s :: rest)))
      as Hstop.
    { intros w' Hw'. exists 1%nat. split; [lia|]. by rewrite Hw'. }
    simpl. destruct (client_Get env (URL s)) as [|st body fails].
    { by apply Hnext. }
    destruct (negb (Z.eqb st 200)). { by apply Hnext. }
    destruct (io_Copy f body fails (log_get (URL s) w))
      as [w1 [bytes err]] eqn:Hcopy.
    pose proof (io_Copy_gets f body fails (log_get (URL s) w)) as [Hg1 _].
    rewrite Hcopy in Hg1. simpl in Hg1.
    destruct err as [e|]. { by apply Hstop. }
    destruct (negb (Z.eqb bytes expectedBytes)); [|by apply Hstop].
    destruct f as [name|]; simpl; [|by apply Hstop].
    destruct (os_Remove name w1) as [w2 rerr] eqn:Hrm.
    pose proof (os_Remove_gets name w1) as [Hg2 _]. rewrite Hrm in Hg2.
    simpl in Hg2. unfold tryOpen.
    destruct (os_OpenFile partPath w2) as [w3 [f3 oerr]] eqn:Hop.
    pose proof (os_OpenFile_gets partPath w2) as [Hg3 _]. rewrite Hop in Hg3.
    simpl in Hg3.
    destruct oerr; simpl; [apply Hstop | apply Hnext]; congruence.
Qed.

(** X6. On a part path that can be opened (it is no directory and the
    directories above it exist) and where no file was: when the sources
    before [s] are refused or of the wrong size and [s] streams exactly the
    expected bytes, the call returns success and the part file holds
    exactly the body of [s], of the expected size. *)
Lemma fetchPkgPart_fresh_file pre s post w :
  openable partPath w = true →
  files w !! partPath = None →
  forallb (passed_over env expectedBytes) pre = true →
  classify' s = Exact →
  let r := fetchPkgPart env partPath expectedBytes (pre ++ s :: post) w in
  r.2 = Return None
  ∧ files r.1 !! partPath = Some (body_of env s)
  ∧ Z.of_nat (length (body_of env s)) = expectedBytes.
Proof.
  intros Ho Hnone Hpre Hs r. subst r.
  rewrite fetchPkgPart_openable by done.
  rewrite download_passed_over by (done || by apply opened_openable).
  rewrite download_exact by done. simpl.
  destruct (pass_over_facts pre (opened partPath w)) as (_ & _ & _ & He & _).
  rewrite He.
  - split; [done|]. rewrite lookup_insert_eq. unfold overwrite. simpl.
    rewrite drop_nil, app_nil_r. split; [done|].
    revert Hs. unfold classify, body_of.
    destruct (client_Get env (URL s)) as [|st body fails]; [done|].
    destruct (negb _); [done|]. destruct fails; [done|].
    destruct (Z.eqb_spec (Z.of_nat (length body)) expectedBytes); done.
  - unfold opened. rewrite Hnone. simpl. by rewrite lookup_insert_eq.
Qed.

(** The loop panics only on the nil file, at a source that answers with
    an empty body, when bytes are expected. *)
Lemma download_panic sources f w :
  (f = None ∨ f = Some partPath) →
  (download' sources f w).2 = Panic →
  f = None ∧ expectedBytes ≠ 0
  ∧ ∃ s, s ∈ sources ∧ empty_answer env s = true.
Proof.
  revert f w. induction sources as [|s rest IH]; intros f w Hf; [done|].
  assert (∀ w', (download' rest f w').2 = Panic →
            f = None ∧ expectedBytes ≠ 0
            ∧ ∃ s0, s0 ∈ s :: rest ∧ empty_answer env s0 = true) as Hnext.
  { intros w' Hp. destruct (IH f w' Hf Hp) as (? & ? & s0 & ? & ?).
    split; [done|]. split; [done|]. exists s0. set_solver. }
  simpl. unfold empty_answer in *.
  destruct (client_Get env (URL s)) as [|st body fails] eqn:Hget; [apply Hnext|].
  destruct (Z.eqb_spec st 200) as [->|]; simpl; [|apply Hnext].
  destruct Hf as [-> | ->]; simpl.
  - destruct body as [|b body], fails; simpl; try done.
    destruct (Z.eqb_spec 0 expectedBytes) as [<-|Hne]; simpl; [done|].
    intros _. split; [done|]. split; [done|]. exists s.
    split; [set_solver|]. by rewrite Hget.
  - destruct fails; [done|].
    destruct (negb _); [|done].
    destruct (os_Remove _ _) as [w2 rerr]. unfold tryOpen.
    pose proof (os_OpenFile_handle partPath w2) as Hh.
    destruct (os_OpenFile partPath w2) as [w3 [f3 [e|]]]; [done|].
    simpl in Hh. destruct Hh as [[_ [? ?]] | [Hf3 _]]; [done|]. subst f3.
    intros Hp. destruct (IH _ w3 (or_intror eq_refl) Hp) as [? _]. done.
Qed.

Lemma fetchPkgPart_panic sources w :
  (fetchPkgPart env partPath expectedBytes sources w).2 = Panic →
  openable partPath w = false ∧ expectedBytes ≠ 0
  ∧ ∃ s, s ∈ sources ∧ empty_answer env s = true.
Proof.
  rewrite fetchPkgPart_download. intros Hp.
  pose proof (os_OpenFile_handle partPath w) as Hh.
  apply download_panic in Hp as (Hf & Hne & Hs);
    [|destruct Hh as [[-> _]|[-> _]]; auto].
  split; [|done].
  destruct (openable partPath w) eqn:Ho; [|done].
  rewrite (os_OpenFile_openable _ _ Ho) in Hf. done.
Qed.

End downloader.

(** ** What the downloader leaves alone *)

Section downloader_frame.

Context (env : Env) (partPath : string) (expectedBytes : Z).

Implicit Types (w : World) (sources pre post : list PartSource).

Local Abbreviation download' := (download env partPath expectedBytes).
Local Abbreviation pass_over' := (pass_over env partPath expectedBytes).

Lemma os_OpenFile_frame name w :
  dirs (os_OpenFile name w).1 = dirs w
  ∧ (∀ q, q ≠ name → files (os_OpenFile name w).1 !! q = files w !! q)
  ∧ ((os_OpenFile name w).2.1 = None ∨ (os_OpenFile name w).2.1 = Some name).
Proof.
  unfold os_OpenFile. destruct (open_error name w); simpl; auto.
  destruct (files w !! name); simpl; auto.
  split; [done|]. split; [|auto]. intros q Hq. by rewrite lookup_insert_ne.
Qed.

Lemma os_Remove_frame name w :
  dirs (os_Remove name w).1 = dirs w
  ∧ (∀ q, q ≠ name → files (os_Remove name w).1 !! q = files w !! q).
Proof.
  unfold os_Remove. destruct (files w !! name); simpl.
  - split; [done|]. intros q Hq. by rewrite lookup_delete_ne.
  - by destruct (is_dir name w).
Qed.

Lemma io_Copy_frame f body fails w :
  (f = None ∨ f = Some partPath) →
  dirs (io_Copy f body fails w).1 = dirs w
  ∧ (∀ q, q ≠ partPath →
       files (io_Copy f body fails w).1 !! q = files w !! q).
Proof.
  intros [-> | ->]; simpl; [by destruct body, fails|]. split; [done|].
  intros q Hq. by rewrite lookup_insert_ne.
Qed.

Lemma download_frame sources f w :
  (f = None ∨ f = Some partPath) →
  dirs (download' sources f w).1 = dirs w
  ∧ (∀ q, q ≠ partPath → files (download' sources f w).1 !! q = files w !! q).
Proof.
  revert f w. induction sources as [|s rest IH]; intros f w Hf; [done|].
  simpl. destruct (client_Get env (URL s)) as [|st body fails].
  { by apply (IH f (log_get (URL s) w)). }
  destruct (negb (Z.eqb st 200)). { by apply (IH f (log_get (URL s) w)). }
  pose proof (io_Copy_frame f body fails (log_get (URL s) w) Hf) as [Hd1 Hf1].
  destruct (io_Copy f body fails (log_get (URL s) w)) as [w1 [bytes err]].
  simpl in Hd1, Hf1. destruct err as [e|]; [done|].
  destruct (negb (Z.eqb bytes expectedBytes)); [|done].
  destruct f as [name|]; simpl; [|done].
  assert (name = partPath) as -> by (destruct Hf; congruence).
  pose proof (os_Remove_frame partPath w1) as [Hd2 Hf2].
  destruct (os_Remove partPath w1) as [w2 rerr]. simpl in Hd2, Hf2.
  unfold tryOpen. pose proof (os_OpenFile_frame partPath w2) as (Hd3 & Hf3 & H3).
  destruct (os_OpenFile partPath w2) as [w3 [f3 oerr]]. simpl in Hd3, Hf3, H3.
  assert (dirs w3 = dirs w) as Hd by congruence.
  assert (∀ q, q ≠ partPath → files w3 !! q = files w !! q) as Hfr.
  { intros q Hq. by rewrite Hf3, Hf2, Hf1. }
  destruct oerr; simpl; [done|].
  destruct (IH f3 w3 H3) as [Hd4 Hf4]. split; [congruence|].
  intros q Hq. by rewrite Hf4, Hfr.
Qed.

Lemma fetchPkgPart_frame sources w q :
  q ≠ partPath →
  files (fetchPkgPart env partPath expectedBytes sources w).1 !! q
  = files w !! q.
Proof.
  intros Hq. rewrite fetchPkgPart_download.
  pose proof (os_OpenFile_frame partPath w) as (Hd & Hf & Hh).
  destruct (download_frame sources _ (os_OpenFile partPath w).1 Hh) as [Hd' Hf'].
  by rewrite Hf', Hf.
Qed.

Lemma fetchPkgPart_dirs sources w :
  dirs (fetchPkgPart env partPath expectedBytes sources w).1 = dirs w.
Proof.
  rewrite fetchPkgPart_download.
  pose proof (os_OpenFile_frame partPath w) as (Hd & _ & Hh).
  destruct (download_frame sources _ (os_OpenFile partPath w).1 Hh) as [Hd' _].
  congruence.
Qed.

Lemma pass_over_content pre w old :
  files w !! partPath = Some old →
  files (fold_left pass_over' pre w) !! partPath
  = Some (content_before env expectedBytes pre old).
Proof.
  revert w old. induction pre as [|s pre IH]; intros w old Hold; [done|].
  simpl. unfold content_before, short in *. simpl.
  unfold pass_over at 2. destruct (classify env expectedBytes s); simpl;
    try (by rewrite (IH _ old)).
  rewrite (IH _ []) by (simpl; by rewrite lookup_insert_eq).
  by destruct (existsb _ pre).
Qed.

Lemma opened_content w :
  files (opened partPath w) !! partPath
  = Some (default [] (files w !! partPath)).
Proof.
  unfold opened. destruct (files w !! partPath) eqn:E; simpl.
  - by rewrite E.
  - by rewrite lookup_insert_eq.
Qed.

Lemma classify_exact_length s :
  classify env expectedBytes s = Exact →
  Z.of_nat (length (body_of env s)) = expectedBytes.
Proof.
  unfold classify, body_of.
  destruct (client_Get env (URL s)) as [|st body fails]; [done|].
  destruct (negb _); [done|]. destruct fails; [done|].
  destruct (Z.eqb_spec (Z.of_nat (length body)) expectedBytes); done.
Qed.

Lemma download_error_kind sources f w e :
  (download' sources f w).2 = Return (Some e) →
  fetch_error partPath e = true.
Proof.
  revert f w. induction sources as [|s rest IH]; intros f w; simpl.
  - intros [= <-]. simpl. apply String.eqb_refl.
  - destruct (client_Get env (URL s)) as [|st body fails]; [apply IH|].
    destruct (negb (Z.eqb st 200)); [apply IH|].
    destruct (io_Copy f body fails (log_get (URL s) w)) as [w1 [bytes [err|]]].
    { intros [= <-]. simpl. apply String.eqb_refl. }
    destruct (negb (Z.eqb bytes expectedBytes)); [|done].
    destruct (tryRemove f w1) as [[w2 rerr]|]; [|done].
    destruct (tryOpen partPath w2) as [w3 [f3 [oerr|]]]; [|apply IH].
    intros [= <-]. simpl. by rewrite String.eqb_refl.
Qed.

Lemma fetchPkgPart_error_kind sources w e :
  (fetchPkgPart env partPath expectedBytes sources w).2 = Return (Some e) →
  fetch_error partPath e = true.
Proof. rewrite fetchPkgPart_download. apply download_error_kind. Qed.

Lemma fetchPkgPart_gets sources w :
  ∃ k, (sources ≠ [] → (0 < k)%nat)
       ∧ gets (fetchPkgPart env partPath expectedBytes sources w).1
         = gets w ++ (URL <$> take k sources).
Proof.
  rewrite fetchPkgPart_download.
  destruct (download_gets env partPath expectedBytes sources
              (os_OpenFile partPath w).2.1 (os_OpenFile partPath w).1)
    as (k & Hk & Hg).
  exists k. split; [done|].
  by rewrite Hg, (proj1 (os_OpenFile_gets partPath w)).
Qed.

End downloader_frame.

(** ** Paths *)

Lemma Clean_nonempty p : path.Clean p ≠ "".
Proof.
  unfold path.Clean.
  destruct (String.eqb _ "") eqn:E; [done|]. by apply String.eqb_neq in E.
Qed.

(** [path.Join] gives the empty path only when it is given nothing but
    empty elements. *)
Lemma Join_nonempty d name : d ≠ "" → path.Join [d; name] ≠ "".
Proof.
  intros Hd. unfold path.Join. rewrite filter_cons, decide_True by done.
  apply Clean_nonempty.
Qed.

Lemma Join_file_nonempty d name : name ≠ "" → path.Join [d; name] ≠ "".
Proof.
  intros Hn. unfold path.Join. rewrite filter_cons.
  case_decide; [apply Clean_nonempty|].
  rewrite filter_cons, decide_True by done. apply Clean_nonempty.
Qed.

Lemma manifest_name_nonempty id : (id ++ ".json")%string ≠ "".
Proof. by destruct id. Qed.

(** ** The orchestrator *)

Section orchestrator.

Context (env : Env) (destinationDir userKeysDir : string).

Implicit Types (o : orch) (t u : task) (st : list task * orch).

Local Abbreviation task_step' := (task_step env destinationDir userKeysDir).
Local Abbreviation sched_step' := (sched_step env destinationDir userKeysDir).
Local Abbreviation run_sched' := (run_sched env destinationDir userKeysDir).
Local Abbreviation final_state' :=
  (final_state env destinationDir userKeysDir).
Local Abbreviation partPath' := (λ t, path.Join [destinationDir; t_name t]).
Local Abbreviation fetch' :=
  (λ t o, fetchPkgPart env (path.Join [destinationDir; t_name t])
            (Bytes (t_part t)) (Sources (t_part t)) (o_world o)).

(** [addResult] only ever adds keys to the recorder's map. *)
Lemma addResult_keeps id err partPath o :
  o_errors o ≠ ∅ → o_errors (addResult env id err partPath o) ≠ ∅.
Proof.
  intros Ho. unfold addResult. destruct err as [e|]; simpl.
  - apply insert_non_empty.
  - case_decide; [|done]. destruct (filepath_Abs env partPath) as [ab er].
    simpl. apply insert_non_empty.
Qed.

Lemma addResult_error id e partPath o :
  o_errors (addResult env id (Some e) partPath o) ≠ ∅.
Proof. simpl. apply insert_non_empty. Qed.

Lemma addResult_world id err p o :
  o_world (addResult env id err p o) = o_world o.
Proof.
  unfold addResult. destruct err; [done|]. case_decide; [|done].
  by destruct (filepath_Abs env p).
Qed.

Lemma addResult_lookup id err p o k :
  is_Some (o_errors o !! k) → is_Some (o_errors (addResult env id err p o) !! k).
Proof.
  intros Hk. unfold addResult. destruct err; simpl.
  - rewrite lookup_insert. by case_decide.
  - case_decide; [|done]. destruct (filepath_Abs env p). simpl.
    rewrite lookup_insert. by case_decide.
Qed.

Lemma task_step_ident t o :
  t_name (task_step' t o).1 = t_name t ∧ t_part (task_step' t o).1 = t_part t.
Proof.
  unfold task_step. destruct (t_pc t); simpl; try done.
  - by destruct (fetchPkgPart _ _ _ _ _) as [w []].
  - by case_decide.
Qed.

(** What one move does to the shared state: nothing, the download of the
    part, or one [addResult]. *)
Lemma task_step_orch t o :
  (task_step' t o).2 = o
  ∨ (t_pc t = PFetch ∧ (task_step' t o).2 = set_world (fetch' t o).1 o)
  ∨ (∃ err, (t_pc t = PAdd1 err ∨ t_pc t = PAdd2 err)
            ∧ (task_step' t o).2
              = addResult env (t_name t) err (partPath' t) o).
Proof.
  unfold task_step. destruct (t_pc t) eqn:Hpc; simpl; eauto.
  - right; left. split; [done|].
    by destruct (fetchPkgPart _ _ _ _ _) as [w []].
  - right; right. eauto.
  - left. by case_decide.
  - left. by destruct o.
  - right; right. eauto.
Qed.

Lemma task_step_errors t o :
  o_errors o ≠ ∅ → o_errors (task_step' t o).2 ≠ ∅.
Proof.
  intros Ho.
  destruct (task_step_orch t o) as [-> | [[_ ->] | (err & _ & ->)]]; try done.
  by apply addResult_keeps.
Qed.

Lemma task_step_moves t o :
  (moves_left (t_pc (task_step' t o).1) ≤ pred (moves_left (t_pc t)))%nat.
Proof.
  unfold task_step.
  destruct (t_pc t) eqn:Hpc; simpl; rewrite ?Hpc; simpl; try lia.
  - destruct (fetchPkgPart _ _ _ _ _) as [w []]; simpl; lia.
  - case_decide; simpl; lia.
Qed.

Lemma sched_step_length st i : length (sched_step' st i).1 = length st.1.
Proof.
  unfold sched_step. destruct (st.1 !! i) as [t|]; [|done].
  destruct (task_step' t st.2). simpl. apply length_insert.
Qed.

Lemma sched_step_moves st i j t :
  st.1 !! j = Some t →
  ∃ t', (sched_step' st i).1 !! j = Some t'
        ∧ (moves_left (t_pc t')
           ≤ (if decide (i = j) then pred (moves_left (t_pc t))
              else moves_left (t_pc t)))%nat.
Proof.
  intros Hj. unfold sched_step. destruct (decide (i = j)) as [->|Hne].
  - rewrite Hj. pose proof (task_step_moves t st.2) as Hm.
    destruct (task_step' t st.2) as [t' o']. simpl in *.
    exists t'. split; [|done]. apply list_lookup_insert_eq.
    by eapply lookup_lt_Some.
  - destruct (st.1 !! i) as [ti|]; [|eauto].
    destruct (task_step' ti st.2) as [t' o']. simpl.
    exists t. split; [|done]. by rewrite list_lookup_insert_ne.
Qed.

Lemma run_sched_length sched st : length (run_sched' sched st).1 = length st.1.
Proof.
  revert st. induction sched as [|i sched IH]; intros st; [done|].
  unfold run_sched in *. simpl. rewrite IH. apply sched_step_length.
Qed.

Lemma run_sched_moves sched st j t :
  st.1 !! j = Some t →
  ∃ t', (run_sched' sched st).1 !! j = Some t'
        ∧ (moves_left (t_pc t')
           ≤ moves_left (t_pc t) - occurrences j sched)%nat.
Proof.
  revert st t. induction sched as [|i sched IH]; intros st t Hj.
  - exists t. split; [done|]. unfold occurrences. simpl. lia.
  - destruct (sched_step_moves st i j t Hj) as (t1 & H1 & Hm1).
    destruct (IH _ _ H1) as (t2 & H2 & Hm2).
    exists t2. split; [exact H2|].
    unfold occurrences in *. rewrite filter_cons.
    destruct (decide (i = j)); simpl; lia.
Qed.

Lemma run_sched_nil sched o : run_sched' sched ([], o) = ([], o).
Proof. induction sched as [|i sched IH]; [done|]. simpl. exact IH. Qed.

Lemma occurrences_app j l1 l2 :
  occurrences j (l1 ++ l2) = (occurrences j l1 + occurrences j l2)%nat.
Proof. unfold occurrences. by rewrite filter_app, length_app. Qed.

Lemma occurrences_join j n :
  (j < n)%nat → occurrences j (join_sched n) = task_moves.
Proof.
  unfold join_sched, occurrences. intros Hj.
  assert (∀ l, NoDup l →
            length (filter (λ i, i = j) (flat_map (replicate task_moves) l))
            = if decide (j ∈ l) then task_moves else 0%nat) as Hgen.
  { induction l as [|i l IH]; intros Hnd; [done|].
    apply NoDup_cons in Hnd as [Hi Hnd].
    change (flat_map (replicate task_moves) (i :: l))
      with (replicate task_moves i ++ flat_map (replicate task_moves) l).
    rewrite filter_app, length_app, (IH Hnd).
    destruct (decide (i = j)) as [->|Hne].
    - rewrite decide_False by done. rewrite decide_True by set_solver.
      unfold task_moves. simpl. rewrite !filter_cons, !decide_True by done.
      by rewrite filter_nil.
    - assert (filter (λ i0, i0 = j) (replicate task_moves i) = []) as ->.
      { unfold task_moves. simpl.
        rewrite !filter_cons, !decide_False by done. by rewrite filter_nil. }
      simpl. rewrite (decide_ext (j ∈ i :: l) (j ∈ l)); [done|].
      rewrite elem_of_cons. split; [intros [->|?]; done | by right]. }
  rewrite Hgen by apply NoDup_seq.
  rewrite decide_True; [done|]. apply elem_of_seq. lia.
Qed.

Section invariant.

Context (parts : DockerImageParts).
Context (G : orch → Prop) (L : orch → task → Prop).

Hypothesis own : ∀ t o,
  parts !! t_name t = Some (t_part t) → G o → L o t →
  G (task_step' t o).2 ∧ L (task_step' t o).2 (task_step' t o).1.

Hypothesis other : ∀ t u o,
  parts !! t_name t = Some (t_part t) → G o → L o t → L o u →
  L (task_step' t o).2 u.

Lemma sched_step_idents st i : idents (sched_step' st i).1 = idents st.1.
Proof.
  unfold sched_step. destruct (st.1 !! i) as [t|] eqn:Hi; [|done].
  pose proof (task_step_ident t st.2) as [Hn Hp].
  destruct (task_step' t st.2) as [t' o']. simpl in *.
  unfold idents. rewrite list_fmap_insert, Hn, Hp.
  apply list_insert_id. by rewrite list_lookup_fmap, Hi.
Qed.

Lemma idents_lookup tasks i t :
  idents tasks = map_to_list parts →
  tasks !! i = Some t →
  parts !! t_name t = Some (t_part t).
Proof.
  intros Hid Hi. apply elem_of_map_to_list. rewrite <- Hid.
  apply list_elem_of_lookup. exists i. unfold idents.
  by rewrite list_lookup_fmap, Hi.
Qed.

Lemma idents_launch : idents (launch parts) = map_to_list parts.
Proof.
  unfold idents, launch. induction (map_to_list parts) as [|[n p] l IH]; [done|].
  simpl. f_equal. exact IH.
Qed.

Lemma launch_pc t : t ∈ launch parts → t_pc t = PFetch.
Proof.
  unfold launch. by intros (np & -> & _)%list_elem_of_fmap.
Qed.

Lemma sched_step_orch_inv st i :
  orch_inv parts G L st → orch_inv parts G L (sched_step' st i).
Proof.
  intros (Hid & HG & HL). split; [by rewrite sched_step_idents|].
  unfold sched_step. destruct (st.1 !! i) as [t|] eqn:Hi; [|done].
  pose proof (idents_lookup _ _ _ Hid Hi) as Hname.
  pose proof (Forall_lookup_1 _ _ _ _ HL Hi) as Ht.
  destruct (own t st.2 Hname HG Ht) as [HG' Ht'].
  pose proof (λ u, other t u st.2 Hname HG Ht) as Hu.
  destruct (task_step' t st.2) as [t' o']. simpl in *.
  split; [done|]. apply Forall_insert; [|done].
  eapply Forall_impl; [exact HL|]. exact Hu.
Qed.

Lemma run_sched_orch_inv sched st :
  orch_inv parts G L st → orch_inv parts G L (run_sched' sched st).
Proof.
  revert st. induction sched as [|i sched IH]; intros st Hst; [done|].
  simpl. apply IH. by apply sched_step_orch_inv.
Qed.

Lemma final_state_orch_inv sched w :
  G (mkOrch w ∅ []) →
  (∀ t, t_pc t = PFetch → L (mkOrch w ∅ []) t) →
  orch_inv parts G L (final_state' sched parts w).
Proof.
  intros HG HL. apply run_sched_orch_inv.
  split; [apply idents_launch|]. split; [done|].
  apply Forall_forall. intros t Ht. apply HL. by apply launch_pc.
Qed.

End invariant.

Context (parts : DockerImageParts).

(** At the join every goroutine has run to its end. *)
Lemma final_state_terminal sched w j t :
  (final_state' sched parts w).1 !! j = Some t → moves_left (t_pc t) = 0%nat.
Proof.
  unfold final_state. intros Hj.
  assert (j < length (launch parts))%nat as Hlt.
  { apply lookup_lt_Some in Hj. by rewrite run_sched_length in Hj. }
  destruct (lookup_lt_is_Some_2 _ _ Hlt) as [t0 Ht0].
  destruct (run_sched_moves
              (sched ++ join_sched (length (launch parts)))
              (launch parts, mkOrch w ∅ []) j t0 Ht0) as (t' & Ht' & Hm).
  rewrite Hj in Ht'. injection Ht' as <-.
  rewrite occurrences_app, occurrences_join in Hm by done.
  unfold task_moves in Hm. destruct (t_pc t0); simpl in Hm; lia.
Qed.

(** The call returns what the shared state holds at the join, unless a
    goroutine has panicked. *)
Lemma fetchAndVerify_final sched w :
  fetchAndVerify env sched parts destinationDir userKeysDir w
  = (let st := final_state' sched parts w in
     (o_world st.2,
      if existsb panicked st.1 then Crashed
      else if decide (0 < size (o_errors st.2))%nat
      then Returned [] (Some (ErrFetchingParts (o_errors st.2)))
      else Returned (o_fetched st.2) None)).
Proof.
  unfold fetchAndVerify, final_state. unfold run_sched.
  rewrite fold_left_app.
  pose proof (run_sched_length sched (launch parts, mkOrch w ∅ [])) as Hlen.
  unfold run_sched in Hlen. simpl in Hlen. rewrite Hlen.
  destruct (fold_left _ (join_sched _) _) as [tasks o]. simpl.
  destruct (existsb panicked tasks); [done|]. by case_decide.
Qed.

Lemma final_task_of_part sched w name part :
  parts !! name = Some part →
  ∃ j t, (final_state' sched parts w).1 !! j = Some t
         ∧ t_name t = name ∧ t_part t = part.
Proof.
  intros Hp.
  destruct (final_state_orch_inv parts (λ _, True) (λ _ _, True))
    with (sched := sched) (w := w) as (Hid & _); try done.
  apply elem_of_map_to_list in Hp. rewrite <- Hid in Hp.
  apply list_elem_of_fmap in Hp as (t & [= -> ->] & Ht).
  apply list_elem_of_lookup in Ht as [j Hj]. by exists j, t.
Qed.

Lemma lookup_size_pos (m : gmap string (option error)) k :
  is_Some (m !! k) → size m ≠ 0%nat.
Proof.
  intros [v Hv] Hz. apply map_size_empty_iff in Hz. by rewrite Hz in Hv.
Qed.

(** A goroutine that is done has seen an entry in the map. *)
Lemma final_state_settled sched w :
  Forall (settled (final_state' sched parts w).2) (final_state' sched parts w).1.
Proof.
  destruct (final_state_orch_inv parts (λ _, True) settled)
    with (sched := sched) (w := w) as (_ & _ & HL); try done.
  - intros t o _ _ Ht. split; [done|]. revert Ht.
    unfold settled, task_step. destruct (t_pc t) eqn:Hpc; simpl; try done.
    + by destruct (fetchPkgPart _ _ _ _ _) as [w' []].
    + case_decide as Hsz; simpl; [done|].
      intros _ He. rewrite He in Hsz. by rewrite map_size_empty in Hsz.
    + intros Herr. destruct err as [e|]; [|done]. apply addResult_error.
    + by rewrite Hpc.
    + by rewrite Hpc.
  - intros t u o _ _ _. unfold settled. destruct (t_pc u); try done.
    apply task_step_errors.
  - intros t Ht. unfold settled. by rewrite Ht.
Qed.

(** When no source answers with an empty body no goroutine panics. *)
Lemma final_state_no_panic sched w :
  no_empty_answer env parts →
  existsb panicked (final_state' sched parts w).1 = false.
Proof.
  intros Hquiet.
  destruct (final_state_orch_inv parts (λ _, True) (λ _ t, t_pc t ≠ PPanic))
    with (sched := sched) (w := w) as (_ & _ & HL); try done.
  - intros t o Hname _ Ht. split; [done|].
    pose proof (fetchPkgPart_panic env (path.Join [destinationDir; t_name t])
                  (Bytes (t_part t)) (Sources (t_part t)) (o_world o)) as Hp.
    unfold task_step. destruct (t_pc t) eqn:Hpc; simpl; try done.
    + destruct (fetchPkgPart _ _ _ _ _) as [w' [err|]]; simpl in *; [done|].
      destruct (Hp eq_refl) as (_ & _ & s & Hs & He).
      by rewrite (Hquiet _ _ _ Hname Hs) in He.
    + by case_decide.
    + by rewrite Hpc.
  - intros t Ht. by rewrite Ht.
  - apply not_true_is_false. intros (u & Hu & Hp)%existsb_exists.
    apply list_elem_of_In in Hu.
    pose proof (proj1 (Forall_forall _ _) HL u Hu) as Hr.
    simpl in Hr. unfold panicked in Hp. by destruct (t_pc u).
Qed.

(** With at least one part the map is not empty at the join: a download
    that fails is recorded, one that succeeds is recorded as a nil entry
    (or as the error of [filepath.Abs]), and if nothing was recorded the
    verifier's error is.  So the call does not return a nil error. *)
Lemma fetchAndVerify_nonempty_or_crash sched w :
  parts ≠ ∅ →
  (fetchAndVerify env sched parts destinationDir userKeysDir w).2 = Crashed
  ∨ ∃ errs, errs ≠ ∅ ∧
      (fetchAndVerify env sched parts destinationDir userKeysDir w).2
      = Returned [] (Some (ErrFetchingParts errs)).
Proof.
  intros Hne. rewrite fetchAndVerify_final. simpl.
  destruct (existsb panicked _) eqn:Hpan; [by left|]. right.
  destruct (map_choose parts Hne) as (name & part & Hp).
  destruct (final_task_of_part sched w name part Hp) as (j & t & Hj & _).
  pose proof (final_state_terminal sched w j t Hj) as Hm.
  pose proof (Forall_lookup_1 _ _ _ _ (final_state_settled sched w) Hj) as Hs.
  assert (o_errors (final_state' sched parts w).2 ≠ ∅) as Herr.
  { unfold settled in Hs. destruct (t_pc t) eqn:Hpc; simpl in Hm; try lia.
    - done.
    - exfalso. apply not_true_iff_false in Hpan. apply Hpan.
      apply existsb_exists. exists t. split.
      + apply list_elem_of_In, list_elem_of_lookup. eauto.
      + unfold panicked. by rewrite Hpc. }
  rewrite decide_True; [eauto|].
  destruct (decide (size (o_errors (final_state' sched parts w).2) = 0%nat))
    as [Hz|]; [|lia].
  by apply map_size_empty_iff in Hz.
Qed.

Lemma fetchAndVerify_nonempty sched w :
  no_empty_answer env parts →
  parts ≠ ∅ →
  ∃ errs, errs ≠ ∅ ∧
    (fetchAndVerify env sched parts destinationDir userKeysDir w).2
    = Returned [] (Some (ErrFetchingParts errs)).
Proof.
  intros Hquiet Hne.
  destruct (fetchAndVerify_nonempty_or_crash sched w Hne) as [Hc|]; [|done].
  rewrite fetchAndVerify_final in Hc. simpl in Hc.
  by rewrite (final_state_no_panic sched w Hquiet) in Hc; case_decide.
Qed.

End orchestrator.

Lemma fetchAndVerify_empty env destinationDir userKeysDir sched w :
  fetchAndVerify env sched ∅ destinationDir userKeysDir w
  = (w, Returned [] None).
Proof.
  unfold fetchAndVerify, launch. rewrite map_to_list_empty. simpl.
  rewrite !run_sched_nil. done.
Qed.

(** ** The manifest fetch and the precheck *)

Lemma fetchPkgMeta_gets env pkgURL destinationDir w :
  gets (fetchPkgMeta env pkgURL destinationDir w).1 = gets w ++ [pkgURL].
Proof.
  unfold fetchPkgMeta. destruct (client_Get env pkgURL) as [|st raw fails]; [done|].
  destruct (negb _); [done|]. destruct (json_Unmarshal env raw); [|done].
  unfold writeFile, ioutil_WriteFile. by destruct (open_error _ _).
Qed.

(** The loop answers for the first part without an entry, whatever the
    order in which the parts come. *)
Lemma precheck_loop_spec images (l : list (string * DockerImagePart)) :
  match precheck_loop images l with
  | None => Forall (λ np, is_Some (images !! Part_ID np.2)) l
  | Some err =>
      ∃ np, np ∈ l ∧ images !! Part_ID np.2 = None
            ∧ err = ErrMissingProvides np.2
  end.
Proof.
  induction l as [|[name part] l IH]; simpl; [done|].
  destruct (images !! Part_ID part) eqn:E.
  - destruct (precheck_loop images l).
    + destruct IH as (np & Hin & Hnone & ->). exists np. set_solver.
    + apply Forall_cons. split; [by eexists | done].
  - exists (name, part). set_solver.
Qed.

(** ** The claims *)

(** C1 (the code departs from the claim). A package of one part whose only
    source serves exactly the expected bytes: the download succeeds and the
    file is on disk, yet [fetchAndVerify] returns a non-nil error and no
    path, because [addResult] stores the nil error under the part's name
    and so makes the error map non-empty.  Under every schedule the call
    ends in that error. *)
Theorem fetchAndVerify_success_reported_as_error :
  let env := Demo.env Demo.pkg in
  let r := fetchAndVerify env [] (Parts Demo.pkg) "/d" "/k" Demo.fresh in
  (fetchPkgPart env "/d/p" 3 [Demo.m1] Demo.fresh).2 = Return None
  ∧ files r.1 !! "/d/p" = Some [Demo.c; Demo.c; Demo.c]
  ∧ r.2 = Returned [] (Some (ErrFetchingParts {[ "p" := None ]}))
  ∧ ∀ sched, ∃ errs,
      (fetchAndVerify env sched (Parts Demo.pkg) "/d" "/k" Demo.fresh).2
      = Returned [] (Some (ErrFetchingParts errs)).
Proof.
  conjuncts; try run.
  intros sched.
  destruct (fetchAndVerify_nonempty (Demo.env Demo.pkg) "/d" "/k"
              (Parts Demo.pkg) sched Demo.fresh) as (errs & _ & Hr).
  - intros name part s Hn Hs. unfold Demo.pkg in Hn. simpl in Hn.
    apply lookup_singleton_Some in Hn as [_ <-].
    apply list_elem_of_singleton in Hs as ->. reflexivity.
  - apply insert_non_empty.
  - by exists errs.
Qed.

(** C2 (the code departs from the claim). The part file is on disk with
    exactly the expected three bytes, and [fetchPkgPart] still sends a GET
    to the source; when that source cannot be reached the call even fails.
    Whatever is on disk, the first declared source is always asked: the
    open of line 99 succeeds on an existing file, so the size test of line
    127 is never reached. *)
Theorem fetchPkgPart_complete_file_is_requested_again :
  let env := Demo.env Demo.pkg in
  os_Stat "/d/p" Demo.complete = inl 3
  ∧ gets (fetchPkgPart env "/d/p" 3 [Demo.m1] Demo.complete).1 = [URL Demo.m1]
  ∧ fetchPkgPart env "/d/p" 3 [Demo.m2] Demo.complete
    = (log_get (URL Demo.m2) Demo.complete, Return (Some (ErrDownload "/d/p")))
  ∧ ∀ env partPath expectedBytes s rest w, ∃ k,
      gets (fetchPkgPart env partPath expectedBytes (s :: rest) w).1
      = gets w ++ URL s :: (URL <$> take k rest).
Proof.
  conjuncts; try run.
  intros env' partPath expectedBytes s rest w.
  rewrite fetchPkgPart_download.
  destruct (download_gets env' partPath expectedBytes (s :: rest)
              (os_OpenFile partPath w).2.1 (os_OpenFile partPath w).1)
    as (k & Hk & Hg).
  destruct k as [|k]; [specialize (Hk ltac:(done)); lia|].
  exists k. rewrite Hg. by rewrite (proj1 (os_OpenFile_gets partPath w)).
Qed.

(** C3 (the code departs from the claim). [PkgFetch] creates the package
    subdirectory [/d/pkg] and then hands the destination directory itself
    to [fetchAndVerify]: the part [p] is written to [/d/p], and nothing is
    written to [/d/pkg/p]. *)
Theorem PkgFetch_part_written_outside_package_directory :
  let w := (PkgFetch (Demo.env Demo.pkg) [] Demo.manifestURL "/d" "/k"
              Demo.fresh).1 in
  path.Join ["/d"; Pkg_ID Demo.pkg] ∈ dirs w
  ∧ files w !! path.Join ["/d"; Pkg_ID Demo.pkg; "p"] = None
  ∧ files w !! path.Join ["/d"; "p"] = Some [Demo.c; Demo.c; Demo.c]
  ∧ path.Join ["/d"; Pkg_ID Demo.pkg; "p"] = "/d/pkg/p".
Proof.
  conjuncts; run.
Qed.

(** C4 (the code departs from the claim). [verifyPkgPart] reports its
    verification error naming the part and returns the world as it got it:
    the rejected file is not deleted.  On the part file of three bytes the
    file is still there after the call. *)
Theorem verifyPkgPart_leaves_rejected_file :
  (∀ userKeysDir partPath signatures w,
     verifyPkgPart userKeysDir partPath signatures w
     = (w, Some (VerificationError
                   ("Verification of failed of part " ++ partPath)%string)))
  ∧ files (verifyPkgPart "/k" "/d/p" ["sig"] Demo.complete).1 !! "/d/p"
    = Some [Demo.a; Demo.a; Demo.a].
Proof. split; [done|]. vm_compute. reflexivity. Qed.

(** C5 (the code departs from the claim). A part without declared
    signatures is rejected like any other: [verifyPkgPart] returns the
    verification error on the empty signature list. *)
Theorem verifyPkgPart_rejects_part_without_signatures :
  ∀ userKeysDir partPath w,
    (verifyPkgPart userKeysDir partPath [] w).2
    = Some (VerificationError
              ("Verification of failed of part " ++ partPath)%string).
Proof. done. Qed.

(** C6 (the code departs from the claim). A file of five bytes is at the
    target path and three bytes are expected.  The open neither truncates
    nor reports the file, the three bytes of the source are written over
    its start, and [fetchPkgPart] returns success on a file of five
    bytes. *)
Theorem fetchPkgPart_success_on_longer_file :
  let r := fetchPkgPart (Demo.env Demo.pkg) "/d/p" 3 [Demo.m1] Demo.longer in
  r.2 = Return None
  ∧ files r.1 !! "/d/p" = Some [Demo.c; Demo.c; Demo.c; Demo.b; Demo.b]
  ∧ os_Stat "/d/p" r.1 = inl 5.
Proof. conjuncts; run. Qed.




(** C8. [precheckPkgParts] returns an error exactly when some part of the
    part mapping has no entry under its identity in [Meta.Provides.Images];
    the error names such a part; and when the precheck fails in [PkgFetch],
    the call returns that error with the manifest request as the only GET
    sent: no part download has started. *)
Theorem precheckPkgParts_spec pkg :
  (is_Some (precheckPkgParts pkg) ↔
   ∃ name part, Parts pkg !! name = Some part
                ∧ Meta_Provides_Images pkg !! Part_ID part = None)
  ∧ (∀ err, precheckPkgParts pkg = Some err →
       ∃ name part, Parts pkg !! name = Some part
                    ∧ Meta_Provides_Images pkg !! Part_ID part = None
                    ∧ err = ErrMissingProvides part)
  ∧ (∀ env sched pkgURL destinationDir userKeysDir w w1 err,
       fetchPkgMeta env pkgURL destinationDir w = (w1, inl pkg) →
       precheckPkgParts pkg = Some err →
       PkgFetch env sched pkgURL destinationDir userKeysDir w
       = (w1, Returned [] (Some err))
       ∧ gets w1 = gets w ++ [pkgURL]).
Proof.
  assert (∀ err, precheckPkgParts pkg = Some err →
            ∃ name part, Parts pkg !! name = Some part
                         ∧ Meta_Provides_Images pkg !! Part_ID part = None
                         ∧ err = ErrMissingProvides part) as Hnamed.
  { intros err Herr. unfold precheckPkgParts in Herr.
    pose proof (precheck_loop_spec (Meta_Provides_Images pkg)
                  (map_to_list (Parts pkg))) as Hl.
    rewrite Herr in Hl. destruct Hl as ([name part] & Hin & Hnone & ->).
    apply elem_of_map_to_list in Hin. by exists name, part. }
  split; [|split; [exact Hnamed|]].
  - split.
    + intros [err Herr]. destruct (Hnamed err Herr) as (name & part & ? & ? & _).
      by exists name, part.
    + intros (name & part & Hin & Hnone). unfold precheckPkgParts.
      pose proof (precheck_loop_spec (Meta_Provides_Images pkg)
                    (map_to_list (Parts pkg))) as Hl.
      destruct (precheck_loop _ _) as [err|]; [by eexists|].
      apply elem_of_map_to_list in Hin.
      pose proof (proj1 (Forall_forall _ _) Hl _ Hin) as [x Hx]. simpl in Hx.
      congruence.
  - intros env sched pkgURL destinationDir userKeysDir w w1 err Hmeta Herr.
    unfold PkgFetch. rewrite Hmeta, Herr. split; [done|].
    pose proof (fetchPkgMeta_gets env pkgURL destinationDir w) as Hg.
    by rewrite Hmeta in Hg.
Qed.

Lemma precheckPkgParts_spec_witness :
  let env := Demo.env Demo.pkg_unlisted in
  ∃ w1,
    fetchPkgMeta env Demo.manifestURL "/d" Demo.fresh = (w1, inl Demo.pkg_unlisted)
    ∧ precheckPkgParts Demo.pkg_unlisted = Some (ErrMissingProvides Demo.part)
    ∧ PkgFetch env [] Demo.manifestURL "/d" "/k" Demo.fresh
      = (w1, Returned [] (Some (ErrMissingProvides Demo.part)))
    ∧ gets w1 = gets Demo.fresh ++ [Demo.manifestURL].
Proof.
  eexists. split; [vm_compute; reflexivity|]. split; [vm_compute; reflexivity|].
  destruct (precheckPkgParts_spec Demo.pkg_unlisted) as (_ & _ & H).
  apply (H (Demo.env Demo.pkg_unlisted) [] Demo.manifestURL "/d" "/k"
           Demo.fresh).
  - vm_compute. reflexivity.
  - vm_compute. reflexivity.
Defined.

(** C9 (as stated, refuted). A package without parts, a manifest that is
    fetched and a precheck that passes do not make [PkgFetch] return a nil
    error: between the precheck and [fetchAndVerify] the package
    subdirectory is created, and when a regular file sits at its path the
    call returns the error of [os.MkdirAll]. *)
Lemma PkgFetch_no_parts_not_always_nil :
  ¬ (∀ env sched pkgURL destinationDir userKeysDir w w1 pkg,
       fetchPkgMeta env pkgURL destinationDir w = (w1, inl pkg) →
       precheckPkgParts pkg = None →
       Parts pkg = ∅ →
       (PkgFetch env sched pkgURL destinationDir userKeysDir w).2
       = Returned [] None).
Proof.
  intros H.
  specialize (H (Demo.env Demo.pkg_empty) [] Demo.manifestURL "/d" "/k"
                Demo.blocked
                (fetchPkgMeta (Demo.env Demo.pkg_empty) Demo.manifestURL "/d"
                   Demo.blocked).1
                Demo.pkg_empty).
  assert ((PkgFetch (Demo.env Demo.pkg_empty) [] Demo.manifestURL "/d" "/k"
             Demo.blocked).2
          = Returned [] (Some (PathError "mkdir" "/d/pkg" ENOTDIR))) as Hrun
    by (vm_compute; reflexivity).
  rewrite Hrun in H. discriminate H; vm_compute; reflexivity.
Qed.

(** C9 (amended). For a package whose part mapping is empty,
    [fetchAndVerify] returns a nil error and a nil list of fetched paths
    under every schedule and leaves the world as it is; and so does
    [PkgFetch] once the manifest is fetched and the package subdirectory is
    created (the precheck of an empty part mapping passes). *)
Theorem fetchAndVerify_no_parts env sched destinationDir userKeysDir w :
  fetchAndVerify env sched ∅ destinationDir userKeysDir w
  = (w, Returned [] None)
  ∧ (∀ pkgURL w1 w2 pkg,
       fetchPkgMeta env pkgURL destinationDir w = (w1, inl pkg) →
       Parts pkg = ∅ →
       os_MkdirAll (path.Join [destinationDir; Pkg_ID pkg]) w1 = (w2, None) →
       precheckPkgParts pkg = None
       ∧ PkgFetch env sched pkgURL destinationDir userKeysDir w
         = (w2, Returned [] None)).
Proof.
  split; [apply fetchAndVerify_empty|].
  intros pkgURL w1 w2 pkg Hmeta Hparts Hmk.
  assert (precheckPkgParts pkg = None) as Hpre.
  { unfold precheckPkgParts. by rewrite Hparts, map_to_list_empty. }
  split; [done|].
  unfold PkgFetch. rewrite Hmeta, Hpre, Hmk, Hparts.
  by rewrite fetchAndVerify_empty.
Qed.

Lemma fetchAndVerify_no_parts_witness :
  let env := Demo.env Demo.pkg_empty in
  ∃ w1 w2,
    fetchPkgMeta env Demo.manifestURL "/d" Demo.fresh = (w1, inl Demo.pkg_empty)
    ∧ Parts Demo.pkg_empty = ∅
    ∧ os_MkdirAll (path.Join ["/d"; Pkg_ID Demo.pkg_empty]) w1 = (w2, None)
    ∧ PkgFetch env [0%nat; 1%nat] Demo.manifestURL "/d" "/k" Demo.fresh
      = (w2, Returned [] None).
Proof.
  eexists _, _.
  split; [vm_compute; reflexivity|]. split; [reflexivity|].
  split; [vm_compute; reflexivity|].
  destruct (fetchAndVerify_no_parts (Demo.env Demo.pkg_empty) [0%nat; 1%nat]
              "/d" "/k" Demo.fresh) as [_ H].
  refine (proj2 (H Demo.manifestURL _ _ Demo.pkg_empty _ _ _)).
  - vm_compute. reflexivity.
  - reflexivity.
  - vm_compute. reflexivity.
Defined.

(** C10. When the copy of a response body into the part file fails,
    [fetchPkgPart] returns the copy error at once and the sources declared
    after it are not asked.  On a part file that could be opened this is
    the source whose body breaks while it is streamed: the file stays on
    disk with the bytes that were written over its start.  On a part file
    that could not be opened it is the first source that is not refused and
    whose copy to the nil file fails, because the write is refused or
    because the body breaks before its first byte: no file is touched. *)
Theorem fetchPkgPart_copy_error_returns_at_once
    env partPath expectedBytes sources w pre s post :
  sources = pre ++ s :: post →
  let r := fetchPkgPart env partPath expectedBytes sources w in
  (openable partPath w = true →
   forallb (passed_over env expectedBytes) pre = true →
   classify env expectedBytes s = Broken →
   r.2 = Return (Some (ErrIOCopy partPath ErrBodyRead))
   ∧ gets r.1 = gets w ++ (URL <$> pre ++ [s])
   ∧ ∃ old, files r.1 !! partPath = Some (overwrite old (body_of env s)))
  ∧ (∀ cause,
       openable partPath w = false →
       forallb (refused env expectedBytes) pre = true →
       nil_copy_error env s = Some cause →
       r = (log_gets (URL <$> pre ++ [s]) w,
            Return (Some (ErrIOCopy partPath cause)))).
Proof.
  intros -> r. subst r. split.
  - intros Ho Hpre Hs.
    rewrite fetchPkgPart_openable by done.
    rewrite download_passed_over by (done || by apply opened_openable).
    rewrite download_broken by done. simpl.
    destruct (pass_over_facts env partPath expectedBytes pre
                (opened partPath w)) as (Hg & _).
    rewrite Hg, (proj1 (opened_gets partPath w)).
    split; [done|]. split; [by rewrite fmap_app, app_assoc|].
    eexists. apply lookup_insert_eq.
  - intros cause Ho Hpre Hs.
    rewrite fetchPkgPart_unopenable_download by done.
    rewrite download_all_refused by done.
    simpl. unfold nil_copy_error in Hs.
    destruct (client_Get env (URL s)) as [|st body fails]; [done|].
    destruct (Z.eqb st 200); [|done]. simpl.
    unfold log_get, log_gets. simpl. rewrite fmap_app, app_assoc.
    destruct body as [|b body]; [destruct fails|]; by simplify_eq.
Qed.

Lemma fetchPkgPart_copy_error_returns_at_once_witness :
  let env := Demo.env Demo.pkg in
  let r := fetchPkgPart env "/d/p" 3 [Demo.m5; Demo.m4; Demo.m1] Demo.fresh in
  let r' := fetchPkgPart env "/x/p" 3 [Demo.m5; Demo.m4; Demo.m1] Demo.fresh in
  (r.2 = Return (Some (ErrIOCopy "/d/p" ErrBodyRead))
   ∧ gets r.1 = gets Demo.fresh ++ (URL <$> [Demo.m5] ++ [Demo.m4])
   ∧ ∃ old, files r.1 !! "/d/p" = Some (overwrite old (body_of env Demo.m4)))
  ∧ r' = (log_gets (URL <$> [Demo.m5] ++ [Demo.m4]) Demo.fresh,
          Return (Some (ErrIOCopy "/x/p" ErrInvalid))).
Proof.
  split.
  - apply (proj1 (fetchPkgPart_copy_error_returns_at_once
                    (Demo.env Demo.pkg) "/d/p" 3 _ Demo.fresh
                    [Demo.m5] Demo.m4 [Demo.m1] eq_refl));
      vm_compute; reflexivity.
  - apply (proj2 (fetchPkgPart_copy_error_returns_at_once
                    (Demo.env Demo.pkg) "/x/p" 3 _ Demo.fresh
                    [Demo.m5] Demo.m4 [Demo.m1] eq_refl));
      vm_compute; reflexivity.
Defined.
(** ** Further properties of the part downloader *)

Section downloader_more.

Context (env : Env) (partPath : string) (expectedBytes : Z).

Implicit Types (w : World) (sources pre post : list PartSource).

(** X5. The downloader touches no file but its own, and no directory. *)
Theorem fetchPkgPart_touches_only_its_file sources w q :
  q ≠ partPath →
  files (fetchPkgPart env partPath expectedBytes sources w).1 !! q
  = files w !! q
  ∧ dirs (fetchPkgPart env partPath expectedBytes sources w).1 = dirs w.
Proof.
  intros Hq. split; [by apply fetchPkgPart_frame | apply fetchPkgPart_dirs].
Qed.

(** X7. On a part file that could be opened: once a source of the wrong
    size has been tried, the file was removed and created again, so a later
    success leaves exactly the body of the source that ended the loop,
    whatever was on disk before the call. *)
Theorem fetchPkgPart_success_after_short_source pre s post w :
  openable partPath w = true →
  forallb (passed_over env expectedBytes) pre = true →
  existsb (short env expectedBytes) pre = true →
  classify env expectedBytes s = Exact →
  let r := fetchPkgPart env partPath expectedBytes (pre ++ s :: post) w in
  r.2 = Return None
  ∧ files r.1 !! partPath = Some (body_of env s)
  ∧ Z.of_nat (length (body_of env s)) = expectedBytes.
Proof.
  intros Ho Hpre Hshort Hs r. subst r.
  rewrite fetchPkgPart_openable by done.
  rewrite download_passed_over by (done || by apply opened_openable).
  rewrite download_exact by done. simpl.
  rewrite (pass_over_content env partPath expectedBytes pre _ _
             (opened_content partPath w)).
  unfold content_before. rewrite Hshort. simpl.
  split; [done|]. rewrite lookup_insert_eq. unfold overwrite.
  rewrite drop_nil, app_nil_r. split; [done|].
  by apply classify_exact_length.
Qed.

(** X8. On a part file that could be opened: when every source is refused
    or of the wrong size, the call fails with the download error and leaves
    the part file behind, empty if it was not there or if some source was
    of the wrong size, with its old content otherwise. *)
Theorem fetchPkgPart_exhausted_leaves_file sources w :
  openable partPath w = true →
  forallb (passed_over env expectedBytes) sources = true →
  let r := fetchPkgPart env partPath expectedBytes sources w in
  r.2 = Return (Some (ErrDownload partPath))
  ∧ files r.1 !! partPath
    = Some (content_before env expectedBytes sources
              (default [] (files w !! partPath))).
Proof.
  intros Ho Hall r. subst r. rewrite fetchPkgPart_openable by done.
  pose proof (download_passed_over env partPath expectedBytes sources []
                (opened partPath w) Hall) as Hd.
  rewrite app_nil_r in Hd. rewrite Hd by by apply opened_openable.
  simpl. split; [done|]. apply pass_over_content, opened_content.
Qed.

(** X9. When the part file cannot be opened (the path is empty, names a
    directory, or lies in a directory that does not exist) the error of the
    open is dropped.  The sources are asked all the same, and the call
    fails at the first one that answers with a body of at least one byte,
    with the copy error of the nil file, leaving the world as it was but
    for the requests. *)
Theorem fetchPkgPart_unopenable pre s post w :
  openable partPath w = false →
  forallb (refused env expectedBytes) pre = true →
  answers env s = true →
  fetchPkgPart env partPath expectedBytes (pre ++ s :: post) w
  = (log_gets (URL <$> pre ++ [s]) w,
     Return (Some (ErrIOCopy partPath ErrInvalid))).
Proof.
  intros Ho Hpre Hs.
  rewrite fetchPkgPart_unopenable_download by done.
  rewrite download_all_refused by done.
  simpl. unfold answers in Hs.
  destruct (client_Get env (URL s)) as [|st [|b body] fails]; try done.
  rewrite Hs. simpl. unfold log_get, log_gets. simpl.
  destruct fails; by rewrite fmap_app, app_assoc.
Qed.

(** X19. When the part file cannot be opened and the first source that is
    not refused answers with an empty body, nothing is written and the copy
    reports no error: if no bytes are expected the call returns success
    although there is no part file, and if bytes are expected it goes on to
    remove the nil file and panics. *)
Theorem fetchPkgPart_nil_file_empty_body pre s post w :
  openable partPath w = false →
  forallb (refused env expectedBytes) pre = true →
  empty_answer env s = true →
  fetchPkgPart env partPath expectedBytes (pre ++ s :: post) w
  = (log_gets (URL <$> pre ++ [s]) w,
     if Z.eqb expectedBytes 0 then Return None else Panic).
Proof.
  intros Ho Hpre Hs.
  rewrite fetchPkgPart_unopenable_download by done.
  rewrite download_all_refused by done.
  simpl. unfold empty_answer in Hs.
  destruct (client_Get env (URL s)) as [|st [|b body] [|]]; try done.
  rewrite Hs. simpl. unfold log_get, log_gets. simpl.
  rewrite fmap_app, app_assoc. simpl.
  by destruct expectedBytes.
Qed.

(** X10. An error the downloader returns is the download error, a copy
    error or an open error, each naming the part path; and the downloader
    panics only when the part file could not be opened, bytes are expected
    and some source answers with an empty body. *)
Theorem fetchPkgPart_outcome sources w :
  (∀ e, (fetchPkgPart env partPath expectedBytes sources w).2
        = Return (Some e) →
        fetch_error partPath e = true)
  ∧ ((fetchPkgPart env partPath expectedBytes sources w).2 = Panic →
     openable partPath w = false ∧ expectedBytes ≠ 0
     ∧ ∃ s, s ∈ sources ∧ empty_answer env s = true).
Proof.
  split; [apply fetchPkgPart_error_kind | apply fetchPkgPart_panic].
Qed.

End downloader_more.

(** ** Further properties of the orchestrator *)

Section orchestrator_props.

Context (env : Env) (destinationDir userKeysDir : string).
Context (parts : DockerImageParts).

Implicit Types (o : orch) (t u : task) (w : World).

Local Abbreviation task_step' := (task_step env destinationDir userKeysDir).
Local Abbreviation final_state' :=
  (final_state env destinationDir userKeysDir).

(** The slice [fetched] is only appended to when an error is stored. *)
Lemma fetched_needs_error sched w :
  let o := (final_state' sched parts w).2 in
  o_errors o = ∅ → o_fetched o = [].
Proof.
  destruct (final_state_orch_inv env destinationDir userKeysDir parts
              (λ o, o_errors o = ∅ → o_fetched o = []) (λ _ _, True))
    with (sched := sched) (w := w) as (_ & HG & _); try done.
  intros t o _ HG _. split; [|done].
  destruct (task_step_orch env destinationDir userKeysDir t o)
    as [-> | [[_ ->] | (err & _ & ->)]]; try done.
  unfold addResult. destruct err as [e|]; simpl.
  - intros He. by apply insert_non_empty in He.
  - case_decide; [|done]. destruct (filepath_Abs env _) as [ab er]. simpl.
    intros He. by apply insert_non_empty in He.
Qed.

(** The world outside the part paths is not touched. *)
Lemma final_state_frame sched w :
  let o := (final_state' sched parts w).2 in
  dirs (o_world o) = dirs w
  ∧ ∀ q, (∀ name, is_Some (parts !! name) →
                  path.Join [destinationDir; name] ≠ q) →
         files (o_world o) !! q = files w !! q.
Proof.
  destruct (final_state_orch_inv env destinationDir userKeysDir parts
              (λ o, dirs (o_world o) = dirs w
                    ∧ ∀ q, (∀ name, is_Some (parts !! name) →
                                    path.Join [destinationDir; name] ≠ q) →
                           files (o_world o) !! q = files w !! q)
              (λ _ _, True))
    with (sched := sched) (w := w) as (_ & HG & _); try done.
  intros t o Hname [Hd Hf] _. split; [|done].
  destruct (task_step_orch env destinationDir userKeysDir t o)
    as [-> | [[_ ->] | (err & _ & ->)]]; try done.
  - simpl. split.
    + rewrite <- Hd. apply fetchPkgPart_dirs.
    + intros q Hq. rewrite <- (Hf q Hq).
      apply fetchPkgPart_frame.
      intros ->. by apply (Hq (t_name t)).
  - by rewrite addResult_world.
Qed.

(** The requests sent are those of declared sources, and a part that is
    past its download has had its first source asked. *)
Lemma final_state_requests sched w :
  orch_inv parts
    (λ o, ∃ l, gets (o_world o) = gets w ++ l ∧ Forall (declared parts) l)
    asked (final_state' sched parts w).
Proof.
  apply final_state_orch_inv.
  - intros t o Hname (l & Hg & Hl) Hask.
    destruct (fetchPkgPart_gets env (path.Join [destinationDir; t_name t])
                (Bytes (t_part t)) (Sources (t_part t)) (o_world o))
      as (k & Hk & Hk').
    unfold asked, task_step in *.
    set (r := fetchPkgPart env (path.Join [destinationDir; t_name t])
                (Bytes (t_part t)) (Sources (t_part t)) (o_world o)) in *.
    destruct (t_pc t) eqn:Hpc; simpl; rewrite ?addResult_world, ?Hpc;
      try (split; [by exists l | done]).
    + assert (∀ s rest, Sources (t_part t) = s :: rest → URL s ∈ gets r.1)
        as Hfirst.
      { intros s rest Hs. rewrite Hk', Hs. rewrite Hs in Hk.
        destruct k as [|k]; [specialize (Hk ltac:(done)); lia|].
        simpl. set_solver. }
      assert (∃ l', gets r.1 = gets w ++ l' ∧ Forall (declared parts) l')
        as Hdecl.
      { exists (l ++ (URL <$> take k (Sources (t_part t)))).
        split; [by rewrite Hk', Hg, app_assoc|].
        apply Forall_app. split; [done|]. apply Forall_forall.
        intros url (s & -> & Hs)%list_elem_of_fmap.
        exists (t_name t), (t_part t), s. split; [done|]. split; [|done].
        by apply (subseteq_take k). }
      destruct r as [w' []]; simpl in *; done.
    + case_decide; simpl; (split; [by exists l | done]).
  - intros t u o Hname (l & Hg & Hl) _ Hu.
    destruct (fetchPkgPart_gets env (path.Join [destinationDir; t_name t])
                (Bytes (t_part t)) (Sources (t_part t)) (o_world o))
      as (k & _ & Hk').
    unfold asked in *. destruct (t_pc u); try done;
      destruct (task_step_orch env destinationDir userKeysDir t o)
        as [-> | [[_ ->] | (er & _ & ->)]];
      rewrite ?addResult_world; try done;
      intros s rest Hs; simpl; rewrite Hk'; apply elem_of_app; left;
      by eapply Hu.
  - exists []. by rewrite app_nil_r.
  - intros t Ht. unfold asked. by rewrite Ht.
Qed.

Lemma filepath_Abs_error p :
  (filepath_Abs env p).2 = None ∨ (filepath_Abs env p).2 = Some ErrGetwd.
Proof.
  unfold filepath_Abs. destruct (path.IsAbs p); [by left|].
  destruct (os_Getwd env); [by left | by right].
Qed.

(** With a destination directory every part path is non-empty: the first
    [addResult] of a goroutine puts an entry under the part's name, the
    map is not empty when the goroutine reads its length, and the verifier
    is not reached. *)
Lemma final_state_entries sched w :
  destinationDir ≠ "" →
  orch_inv parts
    (λ o, ∀ k v, o_errors o !! k = Some v →
                 is_Some (parts !! k) ∧ stored_by_download destinationDir k v)
    (entered env destinationDir) (final_state' sched parts w).
Proof.
  intros Hdest. apply final_state_orch_inv.
  - intros t o Hname HG Ht.
    pose proof (fetchPkgPart_error_kind env (path.Join [destinationDir; t_name t])
                  (Bytes (t_part t)) (Sources (t_part t)) (o_world o)) as Hek.
    pose proof (Join_nonempty destinationDir (t_name t) Hdest) as Hpath.
    unfold entered, task_step in *.
    destruct (t_pc t) eqn:Hpc; simpl; try done.
    + destruct (fetchPkgPart _ _ _ _ _) as [w' [[e|]|]]; simpl in *;
        try done. split; [done|]. by apply Hek.
    + assert (∀ v, stored_by_download destinationDir (t_name t) v →
                (∀ k v', <[t_name t := v]> (o_errors o) !! k = Some v' →
                   is_Some (parts !! k)
                   ∧ stored_by_download destinationDir k v')
                ∧ is_Some (<[t_name t := v]> (o_errors o) !! t_name t))
        as Hins.
      { intros v Hv. split; [|rewrite lookup_insert_eq; by eexists].
        intros k v'. rewrite lookup_insert. case_decide as Hk.
        - intros [= <-]. subst k. split; [by eexists | done].
        - apply HG. }
      unfold addResult. destruct err as [e|]; simpl.
      * apply Hins. right; right. by exists e.
      * rewrite decide_True by done.
        pose proof (filepath_Abs_error
                      (path.Join [destinationDir; t_name t])) as Habs.
        destruct (filepath_Abs env _) as [ab er]. simpl in *.
        apply Hins. destruct Habs as [-> | ->]; [by left | by right; left].
    + pose proof (lookup_size_pos _ _ Ht) as Hsz.
      rewrite decide_False by done. done.
    + by rewrite Hpc.
    + by rewrite Hpc.
  - intros t u o Hname HG Ht Hu. unfold entered in *.
    destruct (t_pc u) as [|[e|]| | | | |]; try done;
      destruct (task_step_orch env destinationDir userKeysDir t o)
        as [-> | [[_ ->] | (er & _ & ->)]]; try done;
      by apply addResult_lookup.
  - intros k v. simpl. by rewrite lookup_empty.
  - intros t Ht. unfold entered. by rewrite Ht.
Qed.

(** After the join every part whose goroutine did not panic has its
    entry. *)
Lemma final_state_all_entered sched w name :
  destinationDir ≠ "" →
  existsb panicked (final_state' sched parts w).1 = false →
  is_Some (parts !! name) →
  is_Some (o_errors (final_state' sched parts w).2 !! name).
Proof.
  intros Hdest Hpan [part Hp].
  destruct (final_task_of_part env destinationDir userKeysDir parts sched w
              name part Hp) as (j & t & Hj & <- & _).
  destruct (final_state_entries sched w Hdest) as (_ & _ & HL).
  pose proof (Forall_lookup_1 _ _ _ _ HL Hj) as Ht.
  pose proof (final_state_terminal env destinationDir userKeysDir parts
                sched w j t Hj) as Hm.
  unfold entered in Ht.
  destruct (t_pc t) as [|[e|]| | | | |] eqn:Hpc; simpl in Hm; try lia; [done|].
  exfalso. apply not_true_iff_false in Hpan. apply Hpan.
  apply existsb_exists. exists t. split.
  - apply list_elem_of_In, list_elem_of_lookup. eauto.
  - unfold panicked. by rewrite Hpc.
Qed.

End orchestrator_props.

(** ** Further properties: the manifest and the top-level fetch *)

Lemma fetchPkgMeta_ok env pkgURL destinationDir w w1 pkg :
  fetchPkgMeta env pkgURL destinationDir w = (w1, inl pkg) ↔
  ∃ raw fails,
    client_Get env pkgURL = GetOk 200 raw fails
    ∧ json_Unmarshal env raw = Some pkg
    ∧ openable (manifest_path destinationDir pkg) w = true
    ∧ w1 = set_files (<[manifest_path destinationDir pkg := raw]> (files w))
             (log_get pkgURL w).
Proof.
  unfold fetchPkgMeta, writeFile, ioutil_WriteFile, manifest_path, openable.
  split.
  - destruct (client_Get env pkgURL) as [|st raw fails]; [done|].
    destruct (Z.eqb_spec st 200) as [->|]; [|done]. simpl.
    destruct (json_Unmarshal env raw) as [pkg'|] eqn:Hdec; [|done].
    rewrite (open_error_ext _ w (log_get pkgURL w)) by done.
    destruct (open_error _ w) eqn:Ho; [done|].
    intros Heq. simplify_eq. exists raw, fails. by rewrite Ho.
  - intros (raw & fails & -> & Hdec & Hopen & ->). simpl. rewrite Hdec.
    rewrite (open_error_ext _ w (log_get pkgURL w)) by done.
    by destruct (open_error _ w).
Qed.

Lemma fetchPkgMeta_error env pkgURL destinationDir w w1 err :
  fetchPkgMeta env pkgURL destinationDir w = (w1, inr err) →
  w1 = log_get pkgURL w.
Proof.
  unfold fetchPkgMeta, writeFile, ioutil_WriteFile.
  destruct (client_Get env pkgURL) as [|st raw fails]; [by intros [= <-]|].
  destruct (negb _); [by intros [= <-]|].
  destruct (json_Unmarshal env raw); [|by intros [= <-]].
  destruct (open_error _ _); simpl; by intros [= <-].
Qed.

Lemma os_MkdirAll_frame name w :
  files (os_MkdirAll name w).1 = files w ∧ gets (os_MkdirAll name w).1 = gets w.
Proof.
  unfold os_MkdirAll. case_decide; [done|]. by destruct (first_file _ w).
Qed.

Lemma os_MkdirAll_error name w w' err :
  os_MkdirAll name w = (w', Some err) → w' = w.
Proof.
  unfold os_MkdirAll. case_decide; [by intros [= <-]|].
  destruct (first_file _ w); by intros [= <-].
Qed.

(** X1. [fetchPkgMeta] returns a package exactly when the GET is answered
    with status 200, the body decodes to that package and the manifest path
    can be opened for writing (it is not a directory, and the directories
    above it exist); the bytes of the body are then stored as they came
    at [<destinationDir>/<pkg.ID>.json], over whatever was there, and
    nothing else changes but the request log.  An error while reading the
    body does not stop the call: what was read is decoded and stored. *)
Theorem fetchPkgMeta_stores_manifest env pkgURL destinationDir w w1 pkg :
  fetchPkgMeta env pkgURL destinationDir w = (w1, inl pkg) ↔
  ∃ raw fails,
    client_Get env pkgURL = GetOk 200 raw fails
    ∧ json_Unmarshal env raw = Some pkg
    ∧ openable (manifest_path destinationDir pkg) w = true
    ∧ files w1 = <[manifest_path destinationDir pkg := raw]> (files w)
    ∧ dirs w1 = dirs w
    ∧ gets w1 = gets w ++ [pkgURL].
Proof.
  rewrite fetchPkgMeta_ok. split.
  - intros (raw & fails & ? & ? & ? & ->). by exists raw, fails.
  - intros (raw & fails & ? & ? & ? & Hf & Hd & Hg). exists raw, fails.
    repeat (split; [done|]). destruct w1 as [f1 d1 g1]. simpl in *.
    by subst.
Qed.

(** X2. When the manifest fetch fails, [PkgFetch] returns its error at
    once: no file and no directory is touched, and the manifest request is
    the only one sent. *)
Theorem PkgFetch_manifest_error
    env sched pkgURL destinationDir userKeysDir w w1 err :
  fetchPkgMeta env pkgURL destinationDir w = (w1, inr err) →
  PkgFetch env sched pkgURL destinationDir userKeysDir w
  = (w1, Returned [] (Some err))
  ∧ files w1 = files w ∧ dirs w1 = dirs w ∧ gets w1 = gets w ++ [pkgURL].
Proof.
  intros Hmeta. unfold PkgFetch. rewrite Hmeta.
  by rewrite (fetchPkgMeta_error _ _ _ _ _ _ Hmeta).
Qed.

(** X3. When the package subdirectory cannot be created, [PkgFetch] returns
    the error of [os.MkdirAll]: the manifest is on disk, and no part has been
    asked for. *)
Theorem PkgFetch_mkdir_error
    env sched pkgURL destinationDir userKeysDir w w1 w2 pkg err :
  fetchPkgMeta env pkgURL destinationDir w = (w1, inl pkg) →
  precheckPkgParts pkg = None →
  os_MkdirAll (path.Join [destinationDir; Pkg_ID pkg]) w1 = (w2, Some err) →
  PkgFetch env sched pkgURL destinationDir userKeysDir w
  = (w1, Returned [] (Some err))
  ∧ gets w1 = gets w ++ [pkgURL].
Proof.
  intros Hmeta Hpre Hmk. unfold PkgFetch. rewrite Hmeta, Hpre, Hmk.
  rewrite (os_MkdirAll_error _ _ _ _ Hmk). split; [done|].
  pose proof (fetchPkgMeta_gets env pkgURL destinationDir w) as Hg.
  by rewrite Hmeta in Hg.
Qed.

(** ** Further properties: what the calls return *)

Section orchestrator_theorems.

Context (env : Env) (destinationDir userKeysDir : string).

Implicit Types (parts : DockerImageParts) (w : World) (sched : list nat).

Lemma fetchAndVerify_nil_error sched parts w fetched :
  (fetchAndVerify env sched parts destinationDir userKeysDir w).2
  = Returned fetched None →
  parts = ∅.
Proof.
  intros Hr. destruct (decide (parts = ∅)) as [|Hne]; [done|].
  destruct (fetchAndVerify_nonempty_or_crash env destinationDir userKeysDir
              parts sched w Hne) as [Hc | (errs & _ & He)]; congruence.
Qed.

Lemma fetchAndVerify_no_path sched parts w fetched err :
  (fetchAndVerify env sched parts destinationDir userKeysDir w).2
  = Returned fetched err →
  fetched = [].
Proof.
  rewrite fetchAndVerify_final. simpl.
  destruct (existsb panicked _); [done|].
  case_decide as Hsz; intros [= <- <-]; [done|].
  apply fetched_needs_error, map_size_empty_iff. lia.
Qed.

Lemma fetchAndVerify_returns sched parts w :
  no_empty_answer env parts →
  ∃ err, (fetchAndVerify env sched parts destinationDir userKeysDir w).2
         = Returned [] err.
Proof.
  intros Hquiet. rewrite fetchAndVerify_final. simpl.
  rewrite (final_state_no_panic env destinationDir userKeysDir parts sched w
             Hquiet).
  case_decide as Hsz; [by eexists|].
  rewrite fetched_needs_error; [by eexists|].
  apply map_size_empty_iff. lia.
Qed.

(** X11. When [fetchAndVerify] returns, its slice of paths is nil: a path
    is appended to [fetched] only together with an error in the map, which
    makes the call return nil for the slice.  The same holds of [PkgFetch].
    Both calls do return when no source of a part answers 200 with an empty
    body; a goroutine that meets such a source on a part file it could not
    open panics, and the program ends there. *)
Theorem fetch_returns_no_path sched parts pkgURL w :
  (∀ fetched err,
     (fetchAndVerify env sched parts destinationDir userKeysDir w).2
     = Returned fetched err → fetched = [])
  ∧ (∀ fetched err,
       (PkgFetch env sched pkgURL destinationDir userKeysDir w).2
       = Returned fetched err → fetched = [])
  ∧ (no_empty_answer env parts →
     ∃ err, (fetchAndVerify env sched parts destinationDir userKeysDir w).2
            = Returned [] err)
  ∧ ((∀ w1 pkg, fetchPkgMeta env pkgURL destinationDir w = (w1, inl pkg) →
                no_empty_answer env (Parts pkg)) →
     ∃ err, (PkgFetch env sched pkgURL destinationDir userKeysDir w).2
            = Returned [] err).
Proof.
  split; [apply fetchAndVerify_no_path|].
  split; [|split; [apply fetchAndVerify_returns|]].
  - intros fetched err. unfold PkgFetch.
    destruct (fetchPkgMeta env pkgURL destinationDir w) as [w1 [pkg|e]];
      [|by intros [= <- <-]].
    destruct (precheckPkgParts pkg); [by intros [= <- <-]|].
    destruct (os_MkdirAll _ w1) as [w2 [e|]]; [by intros [= <- <-]|].
    pose proof (fetchAndVerify_no_path sched (Parts pkg) w2) as Hnp.
    destruct (fetchAndVerify env sched (Parts pkg) destinationDir userKeysDir
                w2) as [w3 [|f [e|]]]; simpl in *; [done| |].
    + by intros [= <- <-].
    + intros [= <- <-]. by eapply Hnp.
  - intros Hquiet. unfold PkgFetch.
    destruct (fetchPkgMeta env pkgURL destinationDir w) as [w1 [pkg|e]];
      [|by eexists].
    destruct (precheckPkgParts pkg); [by eexists|].
    destruct (os_MkdirAll _ w1) as [w2 [e|]]; [by eexists|].
    destruct (fetchAndVerify_returns sched (Parts pkg) w2 (Hquiet w1 pkg eq_refl))
      as [err Herr].
    destruct (fetchAndVerify env sched (Parts pkg) destinationDir userKeysDir
                w2) as [w3 r]. simpl in Herr. subst r.
    destruct err; by eexists.
Qed.

(** X12. Under every schedule [fetchAndVerify] returns a nil error exactly
    for the empty part mapping. *)
Theorem fetchAndVerify_nil_error_iff sched parts w :
  (fetchAndVerify env sched parts destinationDir userKeysDir w).2
  = Returned [] None
  ↔ parts = ∅.
Proof.
  split; [apply fetchAndVerify_nil_error|].
  intros ->. by rewrite fetchAndVerify_empty.
Qed.

(** X13. [PkgFetch] returns a nil error exactly when the manifest is
    fetched, the package has no parts and its subdirectory is created. *)
Theorem PkgFetch_nil_error_iff sched pkgURL w :
  (PkgFetch env sched pkgURL destinationDir userKeysDir w).2 = Returned [] None
  ↔ ∃ w1 w2 pkg,
      fetchPkgMeta env pkgURL destinationDir w = (w1, inl pkg)
      ∧ Parts pkg = ∅
      ∧ os_MkdirAll (path.Join [destinationDir; Pkg_ID pkg]) w1 = (w2, None).
Proof.
  unfold PkgFetch. split.
  - destruct (fetchPkgMeta env pkgURL destinationDir w) as [w1 [pkg|err]];
      [|done].
    destruct (precheckPkgParts pkg); [done|].
    destruct (os_MkdirAll _ w1) as [w2 [err|]] eqn:Hmk; [done|].
    pose proof (fetchAndVerify_nil_error sched (Parts pkg) w2) as Hnil.
    destruct (fetchAndVerify env sched (Parts pkg) destinationDir userKeysDir w2)
      as [w3 [|fetched [err|]]]; try done.
    intros _. exists w1, w2, pkg. split; [done|]. split; [|done].
    by apply (Hnil fetched).
  - intros (w1 & w2 & pkg & -> & Hparts & Hmk).
    unfold precheckPkgParts. rewrite Hparts, map_to_list_empty. simpl.
    rewrite Hmk. by rewrite fetchAndVerify_empty.
Qed.

(** X14. With a destination directory and at least one part, whenever
    [fetchAndVerify] returns, the error map it returns has an entry for
    every part and for nothing else, under every schedule; and it does
    return when no source of a part answers 200 with an empty body. *)
Theorem fetchAndVerify_error_map_keys sched parts w :
  destinationDir ≠ "" →
  parts ≠ ∅ →
  ((fetchAndVerify env sched parts destinationDir userKeysDir w).2 ≠ Crashed →
   ∃ errs,
     (fetchAndVerify env sched parts destinationDir userKeysDir w).2
     = Returned [] (Some (ErrFetchingParts errs))
     ∧ dom errs = dom parts)
  ∧ (no_empty_answer env parts →
     (fetchAndVerify env sched parts destinationDir userKeysDir w).2
     ≠ Crashed).
Proof.
  intros Hdest Hne. rewrite fetchAndVerify_final. simpl. split.
  - pose proof (final_state_all_entered env destinationDir userKeysDir parts
                  sched w) as Hall.
    destruct (final_state_entries env destinationDir userKeysDir parts sched w
                Hdest) as (_ & HG & _).
    destruct (existsb panicked _) eqn:Hpan; [done|]. intros _.
    set (o := (final_state env destinationDir userKeysDir sched parts w).2)
      in *.
    assert (dom (o_errors o) = dom parts) as Hdom.
    { apply set_eq. intros k. rewrite !elem_of_dom. split.
      - intros [v Hv]. by apply (HG k v).
      - by apply Hall. }
    rewrite decide_True; [by eexists|].
    destruct (map_choose parts Hne) as (k & part & Hk).
    pose proof (lookup_size_pos _ k
                  (Hall k Hdest eq_refl (mk_is_Some _ _ Hk))). lia.
  - intros Hquiet.
    rewrite (final_state_no_panic env destinationDir userKeysDir parts sched w
               Hquiet).
    by case_decide.
Qed.

(** X15. With a destination directory, what the returned error map holds
    for a part is nil, the error of [filepath.Abs], or an error of that
    part's download; it is never a verification error, since no goroutine
    gets to call the verifier. *)
Theorem fetchAndVerify_error_map_values sched parts w errs k v :
  destinationDir ≠ "" →
  (fetchAndVerify env sched parts destinationDir userKeysDir w).2
  = Returned [] (Some (ErrFetchingParts errs)) →
  errs !! k = Some v →
  stored_by_download destinationDir k v
  ∧ ∀ msg, v ≠ Some (VerificationError msg).
Proof.
  intros Hdest. rewrite fetchAndVerify_final. simpl.
  destruct (final_state_entries env destinationDir userKeysDir parts sched w
              Hdest) as (_ & HG & _).
  destruct (existsb panicked _); [done|].
  case_decide; [|done]. intros [= <-] Hv.
  destruct (HG k v Hv) as [_ Hst]. split; [done|].
  intros msg ->. destruct Hst as [|[|(e & [= <-] & He)]]; done.
Qed.

Lemma fetchAndVerify_files sched parts w q :
  (∀ name, is_Some (parts !! name) → path.Join [destinationDir; name] ≠ q) →
  files (fetchAndVerify env sched parts destinationDir userKeysDir w).1 !! q
  = files w !! q.
Proof.
  intros Hq. rewrite fetchAndVerify_final. simpl.
  by apply (final_state_frame env destinationDir userKeysDir parts sched w).
Qed.

(** X16. [fetchAndVerify] changes no directory and no file other than the
    part paths [path.Join(destinationDir, name)]. *)
Theorem fetchAndVerify_frame sched parts w q :
  (∀ name, is_Some (parts !! name) → path.Join [destinationDir; name] ≠ q) →
  files (fetchAndVerify env sched parts destinationDir userKeysDir w).1 !! q
  = files w !! q
  ∧ dirs (fetchAndVerify env sched parts destinationDir userKeysDir w).1
    = dirs w.
Proof.
  intros Hq. split; [by apply fetchAndVerify_files|].
  rewrite fetchAndVerify_final. simpl.
  by apply (final_state_frame env destinationDir userKeysDir parts sched w).
Qed.

(** X17. Every part is attempted, whatever happens to the others: under
    every schedule the first declared source of every part is asked. *)
Theorem fetchAndVerify_asks_every_part sched parts w name part s rest :
  parts !! name = Some part →
  Sources part = s :: rest →
  URL s ∈ gets (fetchAndVerify env sched parts destinationDir userKeysDir w).1.
Proof.
  intros Hp Hs. rewrite fetchAndVerify_final. simpl.
  destruct (final_task_of_part env destinationDir userKeysDir parts sched w
              name part Hp) as (j & t & Hj & <- & <-).
  destruct (final_state_requests env destinationDir userKeysDir parts sched w)
    as (_ & _ & HL).
  pose proof (Forall_lookup_1 _ _ _ _ HL Hj) as Ht.
  pose proof (final_state_terminal env destinationDir userKeysDir parts
                sched w j t Hj) as Hm.
  unfold asked in Ht. destruct (t_pc t); simpl in Hm; try lia; by eapply Ht.
Qed.

(** X18. The requests [fetchAndVerify] sends are all for URLs of declared
    sources of its parts. *)
Theorem fetchAndVerify_requests_declared sched parts w :
  ∃ l,
    gets (fetchAndVerify env sched parts destinationDir userKeysDir w).1
    = gets w ++ l
    ∧ Forall (declared parts) l.
Proof.
  rewrite fetchAndVerify_final. simpl.
  by destruct (final_state_requests env destinationDir userKeysDir parts
                 sched w) as (_ & HG & _).
Qed.

(** X4. Once the manifest is fetched it stays on disk as it came, whatever
    becomes of the parts, as long as no part is written to its path. *)
Theorem PkgFetch_keeps_manifest sched pkgURL w w1 pkg :
  fetchPkgMeta env pkgURL destinationDir w = (w1, inl pkg) →
  (∀ name, is_Some (Parts pkg !! name) →
           path.Join [destinationDir; name] ≠ manifest_path destinationDir pkg) →
  files (PkgFetch env sched pkgURL destinationDir userKeysDir w).1
    !! manifest_path destinationDir pkg
  = Some (body_of env (mkSource pkgURL)).
Proof.
  intros Hmeta Hq.
  assert (files w1 !! manifest_path destinationDir pkg
          = Some (body_of env (mkSource pkgURL))) as H1.
  { apply fetchPkgMeta_ok in Hmeta as (raw & fails & Hget & _ & _ & ->).
    unfold body_of. simpl. rewrite Hget. apply lookup_insert_eq. }
  unfold PkgFetch. rewrite Hmeta.
  destruct (precheckPkgParts pkg); [done|].
  pose proof (os_MkdirAll_frame (path.Join [destinationDir; Pkg_ID pkg]) w1)
    as [Hf _].
  destruct (os_MkdirAll _ w1) as [w2 [err|]]; simpl in Hf.
  { simpl. by rewrite Hf. }
  pose proof (fetchAndVerify_files sched (Parts pkg) w2 _ Hq) as Hfr.
  destruct (fetchAndVerify env sched (Parts pkg) destinationDir userKeysDir w2)
    as [w3 [|fetched [err|]]]; simpl in *; by rewrite Hfr, Hf.
Qed.

End orchestrator_theorems.

(** ** The further properties on the small package *)

Lemma fetchPkgMeta_stores_manifest_witness :
  let w1 := (fetchPkgMeta (Demo.env Demo.pkg) Demo.manifestURL "/d"
               Demo.fresh).1 in
  ∃ raw fails,
    client_Get (Demo.env Demo.pkg) Demo.manifestURL = GetOk 200 raw fails
    ∧ json_Unmarshal (Demo.env Demo.pkg) raw = Some Demo.pkg
    ∧ openable (manifest_path "/d" Demo.pkg) Demo.fresh = true
    ∧ files w1 = <[manifest_path "/d" Demo.pkg := raw]> (files Demo.fresh)
    ∧ dirs w1 = dirs Demo.fresh
    ∧ gets w1 = gets Demo.fresh ++ [Demo.manifestURL].
Proof.
  apply (proj1 (fetchPkgMeta_stores_manifest (Demo.env Demo.pkg)
                  Demo.manifestURL "/d" Demo.fresh _ Demo.pkg)).
  vm_compute. reflexivity.
Defined.

Lemma PkgFetch_manifest_error_witness :
  let w1 := log_get "http://nowhere/" Demo.fresh in
  PkgFetch (Demo.env Demo.pkg) [] "http://nowhere/" "/d" "/k" Demo.fresh
  = (w1, Returned [] (Some (ErrClientGet "http://nowhere/")))
  ∧ files w1 = files Demo.fresh ∧ dirs w1 = dirs Demo.fresh
  ∧ gets w1 = gets Demo.fresh ++ ["http://nowhere/"].
Proof.
  apply (PkgFetch_manifest_error (Demo.env Demo.pkg) [] "http://nowhere/" "/d"
           "/k" Demo.fresh).
  vm_compute. reflexivity.
Defined.

Lemma PkgFetch_mkdir_error_witness :
  let w1 := (fetchPkgMeta (Demo.env Demo.pkg_empty) Demo.manifestURL "/d"
               Demo.blocked).1 in
  PkgFetch (Demo.env Demo.pkg_empty) [] Demo.manifestURL "/d" "/k" Demo.blocked
  = (w1, Returned [] (Some (PathError "mkdir" "/d/pkg" ENOTDIR)))
  ∧ gets w1 = gets Demo.blocked ++ [Demo.manifestURL].
Proof.
  apply (PkgFetch_mkdir_error (Demo.env Demo.pkg_empty) [] Demo.manifestURL
           "/d" "/k" Demo.blocked _
           (fetchPkgMeta (Demo.env Demo.pkg_empty) Demo.manifestURL "/d"
              Demo.blocked).1 Demo.pkg_empty).
  - vm_compute. reflexivity.
  - vm_compute. reflexivity.
  - vm_compute. reflexivity.
Defined.

Lemma PkgFetch_keeps_manifest_witness :
  files (PkgFetch (Demo.env Demo.pkg) [0%nat] Demo.manifestURL "/d" "/k"
           Demo.fresh).1 !! manifest_path "/d" Demo.pkg
  = Some (body_of (Demo.env Demo.pkg) (mkSource Demo.manifestURL)).
Proof.
  apply (PkgFetch_keeps_manifest (Demo.env Demo.pkg) "/d" "/k" [0%nat]
           Demo.manifestURL Demo.fresh
           (fetchPkgMeta (Demo.env Demo.pkg) Demo.manifestURL "/d"
              Demo.fresh).1 Demo.pkg).
  - vm_compute. reflexivity.
  - intros name [part Hn]. unfold Demo.pkg in Hn. simpl in Hn.
    apply lookup_singleton_Some in Hn as [<- _]. vm_compute. discriminate.
Defined.

Lemma fetchPkgPart_touches_only_its_file_witness :
  let r := fetchPkgPart (Demo.env Demo.pkg) "/d/p" 3 [Demo.m3; Demo.m1]
             Demo.blocked in
  files r.1 !! "/d/pkg" = files Demo.blocked !! "/d/pkg"
  ∧ dirs r.1 = dirs Demo.blocked.
Proof.
  apply (fetchPkgPart_touches_only_its_file (Demo.env Demo.pkg) "/d/p" 3
           [Demo.m3; Demo.m1] Demo.blocked "/d/pkg").
  discriminate.
Defined.

Lemma fetchPkgPart_fresh_file_witness :
  let env := Demo.env Demo.pkg in
  let r := fetchPkgPart env "/d/p" 3 ([Demo.m2; Demo.m3] ++ Demo.m1 :: [Demo.m5])
             Demo.fresh in
  r.2 = Return None
  ∧ files r.1 !! "/d/p" = Some (body_of env Demo.m1)
  ∧ Z.of_nat (length (body_of env Demo.m1)) = 3.
Proof.
  apply (fetchPkgPart_fresh_file (Demo.env Demo.pkg) "/d/p" 3
           [Demo.m2; Demo.m3] Demo.m1 [Demo.m5] Demo.fresh);
    vm_compute; reflexivity.
Defined.

Lemma fetchPkgPart_success_after_short_source_witness :
  let env := Demo.env Demo.pkg in
  let r := fetchPkgPart env "/d/p" 3 ([Demo.m3] ++ Demo.m1 :: []) Demo.longer in
  r.2 = Return None
  ∧ files r.1 !! "/d/p" = Some (body_of env Demo.m1)
  ∧ Z.of_nat (length (body_of env Demo.m1)) = 3.
Proof.
  apply (fetchPkgPart_success_after_short_source (Demo.env Demo.pkg) "/d/p" 3
           [Demo.m3] Demo.m1 [] Demo.longer); vm_compute; reflexivity.
Defined.

Lemma fetchPkgPart_exhausted_leaves_file_witness :
  let env := Demo.env Demo.pkg in
  let r := fetchPkgPart env "/d/p" 3 [Demo.m2; Demo.m5] Demo.complete in
  r.2 = Return (Some (ErrDownload "/d/p"))
  ∧ files r.1 !! "/d/p"
    = Some (content_before env 3 [Demo.m2; Demo.m5]
              (default [] (files Demo.complete !! "/d/p"))).
Proof.
  apply (fetchPkgPart_exhausted_leaves_file (Demo.env Demo.pkg) "/d/p" 3
           [Demo.m2; Demo.m5] Demo.complete); vm_compute; reflexivity.
Defined.

Lemma fetchPkgPart_unopenable_witness :
  fetchPkgPart (Demo.env Demo.pkg) "/x/p" 3 ([Demo.m2] ++ Demo.m1 :: [Demo.m3])
    Demo.fresh
  = (log_gets (URL <$> [Demo.m2] ++ [Demo.m1]) Demo.fresh,
     Return (Some (ErrIOCopy "/x/p" ErrInvalid))).
Proof.
  apply (fetchPkgPart_unopenable (Demo.env Demo.pkg) "/x/p" 3 [Demo.m2] Demo.m1
           [Demo.m3] Demo.fresh); vm_compute; reflexivity.
Defined.

Lemma fetchPkgPart_nil_file_empty_body_witness :
  fetchPkgPart (Demo.env Demo.pkg) "/x/p" 3 ([Demo.m2] ++ Demo.m6 :: [Demo.m1])
    Demo.fresh
  = (log_gets (URL <$> [Demo.m2] ++ [Demo.m6]) Demo.fresh,
     if Z.eqb 3 0 then Return None else Panic).
Proof.
  apply (fetchPkgPart_nil_file_empty_body (Demo.env Demo.pkg) "/x/p" 3
           [Demo.m2] Demo.m6 [Demo.m1] Demo.fresh); vm_compute; reflexivity.
Defined.

Lemma fetchPkgPart_outcome_witness :
  fetch_error "/d/p" (ErrIOCopy "/d/p" ErrBodyRead) = true
  ∧ (openable "/x/e" Demo.fresh = false ∧ 3 ≠ 0
     ∧ ∃ s, s ∈ [Demo.m6] ∧ empty_answer (Demo.env Demo.pkg_e) s = true).
Proof.
  split.
  - apply (proj1 (fetchPkgPart_outcome (Demo.env Demo.pkg) "/d/p" 3 [Demo.m4]
                    Demo.fresh)).
    vm_compute. reflexivity.
  - apply (proj2 (fetchPkgPart_outcome (Demo.env Demo.pkg_e) "/x/e" 3
                    [Demo.m6] Demo.fresh)).
    vm_compute. reflexivity.
Defined.

Lemma fetch_returns_no_path_witness :
  let env := Demo.env Demo.pkg in
  (∃ err, (fetchAndVerify env [0%nat] (Parts Demo.pkg) "/d" "/k"
             Demo.fresh).2 = Returned [] err)
  ∧ (∃ err, (PkgFetch env [0%nat] Demo.manifestURL "/d" "/k" Demo.fresh).2
            = Returned [] err).
Proof.
  assert (no_empty_answer (Demo.env Demo.pkg) (Parts Demo.pkg)) as Hquiet.
  { intros name part s Hn Hs. unfold Demo.pkg in Hn. simpl in Hn.
    apply lookup_singleton_Some in Hn as [_ <-].
    apply list_elem_of_singleton in Hs as ->. reflexivity. }
  pose proof (fetch_returns_no_path (Demo.env Demo.pkg) "/d" "/k" [0%nat]
                (Parts Demo.pkg) Demo.manifestURL Demo.fresh)
    as (_ & _ & Hfetch & Hpkg).
  split; [exact (Hfetch Hquiet)|].
  apply Hpkg. intros w1 pkg Hmeta.
  assert (fetchPkgMeta (Demo.env Demo.pkg) Demo.manifestURL "/d" Demo.fresh
          = ((fetchPkgMeta (Demo.env Demo.pkg) Demo.manifestURL "/d"
                Demo.fresh).1, inl Demo.pkg)) as Hrun
    by (vm_compute; reflexivity).
  rewrite Hrun in Hmeta. injection Hmeta as _ <-. exact Hquiet.
Defined.

Lemma fetchAndVerify_nil_error_iff_witness :
  (fetchAndVerify (Demo.env Demo.pkg_empty) [2%nat; 0%nat] ∅ "/d" "/k"
     Demo.fresh).2
  = Returned [] None.
Proof.
  apply (proj2 (fetchAndVerify_nil_error_iff (Demo.env Demo.pkg_empty) "/d"
                  "/k" [2%nat; 0%nat] ∅ Demo.fresh)).
  reflexivity.
Defined.

Lemma PkgFetch_nil_error_iff_witness :
  (PkgFetch (Demo.env Demo.pkg_empty) [] Demo.manifestURL "/d" "/k"
     Demo.fresh).2
  = Returned [] None.
Proof.
  apply (proj2 (PkgFetch_nil_error_iff (Demo.env Demo.pkg_empty) "/d" "/k" []
                  Demo.manifestURL Demo.fresh)).
  eexists _, _, Demo.pkg_empty.
  split; [vm_compute; reflexivity|]. split; [reflexivity|].
  vm_compute. reflexivity.
Defined.

Lemma fetchAndVerify_error_map_keys_witness :
  ∃ errs,
    (fetchAndVerify (Demo.env Demo.pkg2) [1%nat; 0%nat; 1%nat]
       (Parts Demo.pkg2) "/d" "/k" Demo.fresh).2
    = Returned [] (Some (ErrFetchingParts errs))
    ∧ dom errs = dom (Parts Demo.pkg2).
Proof.
  apply (fetchAndVerify_error_map_keys (Demo.env Demo.pkg2) "/d" "/k"
           [1%nat; 0%nat; 1%nat] (Parts Demo.pkg2) Demo.fresh).
  - discriminate.
  - apply insert_non_empty.
  - vm_compute. discriminate.
Defined.

Lemma fetchAndVerify_error_map_values_witness :
  stored_by_download "/d" "q" (Some (ErrIOCopy "/d/q" ErrBodyRead))
  ∧ ∀ msg, Some (ErrIOCopy "/d/q" ErrBodyRead) ≠ Some (VerificationError msg).
Proof.
  apply (fetchAndVerify_error_map_values (Demo.env Demo.pkg2) "/d" "/k"
           [1%nat; 0%nat; 1%nat] (Parts Demo.pkg2) Demo.fresh
           {[ "p" := None; "q" := Some (ErrIOCopy "/d/q" ErrBodyRead) ]} "q").
  - discriminate.
  - vm_compute. reflexivity.
  - vm_compute. reflexivity.
Defined.

Lemma fetchAndVerify_frame_witness :
  let r := fetchAndVerify (Demo.env Demo.pkg2) [1%nat; 0%nat; 1%nat]
             (Parts Demo.pkg2) "/d" "/k" Demo.blocked in
  files r.1 !! "/d/pkg" = files Demo.blocked !! "/d/pkg"
  ∧ dirs r.1 = dirs Demo.blocked.
Proof.
  apply (fetchAndVerify_frame (Demo.env Demo.pkg2) "/d" "/k"
           [1%nat; 0%nat; 1%nat] (Parts Demo.pkg2) Demo.blocked "/d/pkg").
  intros name [part Hn]. unfold Demo.pkg2 in Hn. simpl in Hn.
  apply lookup_insert_Some in Hn as [[<- _] | [_ Hn]];
    [vm_compute; discriminate|].
  apply lookup_singleton_Some in Hn as [<- _]. vm_compute. discriminate.
Defined.

Lemma fetchAndVerify_asks_every_part_witness :
  URL Demo.m4
  ∈ gets (fetchAndVerify (Demo.env Demo.pkg2) [1%nat; 1%nat; 1%nat]
            (Parts Demo.pkg2) "/d" "/k" Demo.fresh).1.
Proof.
  apply (fetchAndVerify_asks_every_part (Demo.env Demo.pkg2) "/d" "/k"
           [1%nat; 1%nat; 1%nat] (Parts Demo.pkg2) Demo.fresh "q" Demo.part_q
           Demo.m4 [Demo.m1]); vm_compute; reflexivity.
Defined.
